(** * AsyncQueue (mod.ts): a queue pushed into synchronously and consumed
    through an async iterator.

    The class keeps three private fields ([#queue], [#resolve], [#error]) and
    two public arrow-function fields ([push], [close]) that [close] replaces
    by no-ops.  The embedding is a record holding those fields together with
    the control state of the (single) async generator that consumes the
    queue; every method is a function on that record.

    Conventions of the model
    - [T] is the payload type.  The two sentinels are symbols of their own,
      so an entry of [#queue] is a tagged union: a payload, a promise of a
      payload, [END] or [ERROR].  [push] enqueues its arguments as they
      are, and the symbols are exported: an argument of [push] is a
      payload, a promise of a payload, or one of the two symbols, which
      then is the marker.
    - A promise is represented by the way it settles (or by [Unsettled] when
      it never does), and it fulfils with a payload.  Awaiting is atomic:
      while the generator is suspended on a promise it does not touch the
      queue, and calls of the producer in the meantime only reach the
      fields, so they commute with the wait as far as what the loop yields
      and how it ends are concerned.  An entry taken from the buffer leaves
      it, in the model, when its wait is over; [queue.length] read during
      the wait is one less in the code.
    - Failures are values.  The code extends the [errors] array of its
      [AggregateError] in place, so an object thrown earlier also shows
      the failures recorded after the throw; [Thrown] holds the failure as
      it was when thrown.
    - A failure is an [Error] object, as [withError] is typed; objects are
      truthy, so [if (withError)] asks whether the option was given.
    - [push] and [close] are invoked as methods ([queue.push(...)],
      [queue.close(...)]), i.e. through the field as it is at the time of
      the call.  The bodies the fields hold initially are [push_body] and
      [close_body]; a reference to one of them kept from before the
      [close] would still run the body, and is not a call of the model.
    - One consumer: a single generator object iterates the queue. *)

From Stdlib Require Import List Bool Arith Lia String.
Import ListNotations.

(** ** Failures *)

(** An [Error] object; [AggregateError] is the subclass that
    [#handleError] tests for with [instanceof] and whose [errors] array it
    extends. *)
#[warnings="-register-all"]
Inductive Error : Type :=
| PlainError (message : string)
| AggregateError (errors : list Error).

Definition isAggregateError (e : Error) : bool :=
  match e with
  | AggregateError _ => true
  | PlainError _ => false
  end.

(** [new Error("AsyncQueueError: queue.push was called with no arguments")] *)
Definition noArgumentsError : Error :=
  PlainError "AsyncQueueError: queue.push was called with no arguments"%string.

(** [EndOptions = { immediately?: boolean, withError?: Error }]; the
    destructuring default of [close] makes an absent [immediately] false. *)
Record EndOptions : Type := {
  immediately : bool;
  withError : option Error
}.

(** [close()] with no argument: the parameter default [{}]. *)
Definition noOptions : EndOptions :=
  {| immediately := false; withError := None |}.

(** [{ withError: err }] *)
Definition failing (err : Error) : EndOptions :=
  {| immediately := false; withError := Some err |}.

(** The failure state after the failures [es] have been reported in that
    order: none, the single one, or one [AggregateError] of all of them. *)
Definition accumulated (es : list Error) : option Error :=
  match es with
  | [] => None
  | [e] => Some e
  | _ => Some (AggregateError es)
  end.

Section Queue.

Variable T : Type.

(** ** Data *)

(** How a [Promise<T>] settles. *)
Inductive Promise : Type :=
| Fulfilled (v : T)
| Rejected (reason : Error)
| Unsettled.

(** An argument of [push]: [T | Promise<T>], a payload or a promise of
    one; or, since the default [T = unknown] admits them, the exported
    symbol [END] or [ERROR] itself. *)
Inductive Pushable : Type :=
| Now (v : T)
| Later (p : Promise)
| EndSymbol
| ErrorSymbol.

(** [Enqueueable<T> = T | Promise<T> | typeof END | typeof ERROR] *)
Inductive Enqueueable : Type :=
| Value (v : T)
| Pending (p : Promise)
| END
| ERROR.

(** [push] spreads its arguments into [#enqueue] unchanged; the loop
    compares what it takes out with [=== ERROR] and [=== END]. *)
Definition enqueueable (d : Pushable) : Enqueueable :=
  match d with
  | Now v => Value v
  | Later p => Pending p
  | EndSymbol => END
  | ErrorSymbol => ERROR
  end.

(** Control state of the async generator [[Symbol.asyncIterator]]():
    - [Ready]: not started yet, or suspended at [yield]; the next
      resumption evaluates the head of the loop;
    - [Waiting]: suspended on [await new Promise(res => ...)];
    - [Resumed value]: that promise was resolved with [value], the
      generator has not run on yet;
    - [Returned]: left the loop through [break];
    - [Thrown exn]: finished by throwing [exn] ([None] is [undefined]);
    - [Hung]: awaiting a promise that never settles. *)
Inductive Iterator : Type :=
| Ready
| Waiting
| Resumed (value : Enqueueable)
| Returned
| Thrown (exn : option Error)
| Hung.

(** The object.  [resolve] is [true] when [#resolve] holds the resolver of
    the promise the generator awaits and [false] when it is [null];
    [closed] is [true] once [push] and [close] have been replaced by
    [() => {}]. *)
Record AsyncQueue : Type := {
  queue : list Enqueueable;
  resolve : bool;
  error : option Error;
  closed : bool;
  iterator : Iterator
}.

(** [new AsyncQueue()] *)
Definition fresh : AsyncQueue :=
  {| queue := []; resolve := false; error := None; closed := false;
     iterator := Ready |}.

Definition set_iterator (it : Iterator) (s : AsyncQueue) : AsyncQueue :=
  {| queue := queue s; resolve := resolve s; error := error s;
     closed := closed s; iterator := it |}.

Definition set_queue (q : list Enqueueable) (s : AsyncQueue) : AsyncQueue :=
  {| queue := q; resolve := resolve s; error := error s;
     closed := closed s; iterator := iterator s |}.

(** ** Producer side *)

(** [#handleError(err)] *)
Definition handleError (err : Error) (s : AsyncQueue) : AsyncQueue :=
  {| queue := queue s;
     resolve := resolve s;
     error :=
       match error s with
       | Some (AggregateError errors) => Some (AggregateError (errors ++ [err]))
       | Some prior => Some (AggregateError [prior; err])
       | None => Some err
       end;
     closed := closed s;
     iterator := iterator s |}.

(** Calling the resolver held in [#resolve]: the promise the generator is
    suspended on is resolved with [value].  A resolver whose promise is not
    awaited changes nothing. *)
Definition resume (value : Enqueueable) (it : Iterator) : Iterator :=
  match it with
  | Waiting => Resumed value
  | _ => it
  end.

(** [#enqueue(immediate, data)].  Both call sites pass at least one entry
    ([d] followed by [ds]), so [this.#queue.shift()!] finds a head.  The
    optional call [this.#resolve?.(...)] does not evaluate its argument when
    [#resolve] is [null]: nothing is shifted then. *)
Definition enqueue (immediate : bool) (d : Enqueueable) (ds : list Enqueueable)
    (s : AsyncQueue) : AsyncQueue :=
  let q := if immediate then (d :: ds) ++ queue s else queue s ++ d :: ds in
  if resolve s
  then {| queue := tl q; resolve := false; error := error s;
          closed := closed s; iterator := resume (hd d q) (iterator s) |}
  else {| queue := q; resolve := false; error := error s;
          closed := closed s; iterator := iterator s |}.

(** The arrow function [push] is initialised with. *)
Definition push_body (data : list Pushable) (s : AsyncQueue) : AsyncQueue :=
  match data with
  | d :: ds => enqueue false (enqueueable d) (map enqueueable ds) s
  | [] => handleError noArgumentsError (enqueue false ERROR [] s)
  end.

(** The arrow function [close] is initialised with; its last statement
    [this.push = this.close = () => {}] sets [closed]. *)
Definition close_body (o : EndOptions) (s : AsyncQueue) : AsyncQueue :=
  let s1 := match withError o with
            | Some err => handleError err s
            | None => s
            end in
  let s2 := enqueue (immediately o)
                    (match withError o with Some _ => ERROR | None => END end)
                    [] s1 in
  {| queue := queue s2; resolve := resolve s2; error := error s2;
     closed := true; iterator := iterator s2 |}.

(** [queue.push(...data)] *)
Definition push (data : list Pushable) (s : AsyncQueue) : AsyncQueue :=
  if closed s then s else push_body data s.

(** [queue.close(options)] *)
Definition close (o : EndOptions) (s : AsyncQueue) : AsyncQueue :=
  if closed s then s else close_body o s.

(** ** Consumer side *)

(** Awaiting [p], then continuing with [k] on its value. *)
Definition await (p : Promise) (k : T -> AsyncQueue -> AsyncQueue * option T)
    (s : AsyncQueue) : AsyncQueue * option T :=
  match p with
  | Fulfilled v => k v s
  | Rejected reason => (set_iterator (Thrown (Some reason)) s, None)
  | Unsettled => (set_iterator Hung s, None)
  end.

(** The loop body once [value] is bound:
    [if (value === ERROR) throw this.#error; if (value === END) break;
     yield value;].  In an async generator [yield] awaits its operand, so a
    promise taken from the buffer is unwrapped here. *)
Definition loop_body (value : Enqueueable) (s : AsyncQueue)
    : AsyncQueue * option T :=
  match value with
  | ERROR => (set_iterator (Thrown (error s)) s, None)
  | END => (set_iterator Returned s, None)
  | Value v => (set_iterator Ready s, Some v)
  | Pending p => await p (fun v s' => (set_iterator Ready s', Some v)) s
  end.

(** Continuing after [await new Promise(...)] was resolved with [value]: a
    promise passed to the resolver is followed by the awaited one, so
    [value] is bound to what it fulfils with. *)
Definition after_await (value : Enqueueable) (s : AsyncQueue)
    : AsyncQueue * option T :=
  match value with
  | Pending p => await p (fun v => loop_body (Value v)) s
  | _ => loop_body value s
  end.

(** One resumption of the generator, up to its next [yield] (the payload
    handed out), suspension, return or throw. *)
Definition next (s : AsyncQueue) : AsyncQueue * option T :=
  match iterator s with
  | Ready =>
      match queue s with
      | value :: rest => loop_body value (set_queue rest s)
      | [] =>
          ({| queue := []; resolve := true; error := error s;
              closed := closed s; iterator := Waiting |}, None)
      end
  | Resumed value => after_await value s
  | _ => (s, None)
  end.

(** ** Schedules *)

(** What can happen to the object: a method call of the producer, or the
    generator being resumed. *)
Inductive Call : Type :=
| Push (data : list Pushable)
| Close (o : EndOptions)
| Next.

(** The payload of a resumption, as a list of at most one. *)
Definition handed_out (y : option T) : list T :=
  match y with
  | Some v => [v]
  | None => []
  end.

(** The effect of one call, and what it made the loop yield. *)
Definition step (c : Call) (s : AsyncQueue) : AsyncQueue * list T :=
  match c with
  | Push data => (push data s, [])
  | Close o => (close o s, [])
  | Next => let '(s', y) := next s in (s', handed_out y)
  end.

(** Running a schedule: the final object and the payloads yielded on the
    way, in order. *)
Fixpoint run (cs : list Call) (s : AsyncQueue) : AsyncQueue * list T :=
  match cs with
  | [] => (s, [])
  | c :: cs' =>
      let '(s1, ys) := step c s in
      let '(s2, zs) := run cs' s1 in
      (s2, ys ++ zs)
  end.

(** The [for await] loop driven with no producer call in between, until the
    generator finishes or suspends as the waiter: every resumption from
    [Ready] takes one buffered entry, so [2 + length (queue s)] resumptions
    are enough. *)
Definition consume (s : AsyncQueue) : AsyncQueue * list T :=
  run (repeat Next (2 + List.length (queue s))) s.

(** What the consumer has seen when the schedule [cs] has run on a new
    queue and the loop has then been driven to its end. *)
Definition for_await (cs : list Call) : list T * Iterator :=
  let '(s, ys) := run cs fresh in
  let '(s', zs) := consume s in
  (ys ++ zs, iterator s').

(** ** What the loop has in front of it *)

(** The entries the loop has not processed yet, oldest first: the one a
    resolved [await] is about to bind, then the buffer. *)
Definition stream (s : AsyncQueue) : list Enqueueable :=
  match iterator s with
  | Resumed value => value :: queue s
  | _ => queue s
  end.

(** The payload the loop yields for an entry, if it yields one. *)
Definition payload (e : Enqueueable) : option T :=
  match e with
  | Value v => Some v
  | Pending (Fulfilled v) => Some v
  | _ => None
  end.

(** The payloads of a run of entries that all yield one. *)
Fixpoint payloads (es : list Enqueueable) : option (list T) :=
  match es with
  | [] => Some []
  | e :: es' =>
      match payload e, payloads es' with
      | Some v, Some vs => Some (v :: vs)
      | _, _ => None
      end
  end.

(** Reading a run of entries off as the loop does when [#error] is [err]:
    the payloads yielded, and how the generator ends up. *)
Fixpoint outcome (err : option Error) (es : list Enqueueable)
    : list T * Iterator :=
  match es with
  | [] => ([], Waiting)
  | Value v :: es' | Pending (Fulfilled v) :: es' =>
      let '(vs, it) := outcome err es' in (v :: vs, it)
  | Pending (Rejected reason) :: _ => ([], Thrown (Some reason))
  | Pending Unsettled :: _ => ([], Hung)
  | END :: _ => ([], Returned)
  | ERROR :: _ => ([], Thrown err)
  end.

(** What is still to come for the consumer of [s] if the producer stays
    silent. *)
Definition remaining (s : AsyncQueue) : list T * Iterator :=
  match iterator s with
  | Ready | Waiting | Resumed _ => outcome (error s) (stream s)
  | it => ([], it)
  end.

(** The generator waits only on an empty buffer. *)
Definition waits_on_empty (s : AsyncQueue) : Prop :=
  iterator s = Waiting -> queue s = [].

(** Resumptions the generator can still make use of without the producer. *)
Definition work (s : AsyncQueue) : nat :=
  match iterator s with
  | Ready => 1 + List.length (queue s)
  | Resumed _ => 2 + List.length (queue s)
  | _ => 0
  end.

(** A schedule of the feeding phase: resumptions of the generator and
    [push] calls with at least one argument, every argument a payload or a
    fulfilled promise.  [fed cs] is the payloads it pushes, in order. *)
Fixpoint fed (cs : list Call) : option (list T) :=
  match cs with
  | [] => Some []
  | Next :: cs' => fed cs'
  | Push (d :: ds) :: cs' =>
      match payloads (map enqueueable (d :: ds)), fed cs' with
      | Some ws, Some vs => Some (ws ++ vs)
      | _, _ => None
      end
  | _ => None
  end.

(** ** Invariants *)

(** The generator has neither returned, thrown nor hung. *)
Definition running (it : Iterator) : bool :=
  match it with
  | Ready | Waiting | Resumed _ => true
  | _ => false
  end.

(** The generator is suspended on the promise of the waiter slot. *)
Definition waiting (it : Iterator) : bool :=
  match it with
  | Waiting => true
  | _ => false
  end.

(** The state of a queue that has only been fed so far (no failure, not
    closed) and whose unprocessed entries carry the payloads [vs]. *)
Definition feeding (s : AsyncQueue) (vs : list T) : Prop :=
  closed s = false
  /\ error s = None
  /\ resolve s = waiting (iterator s)
  /\ running (iterator s) = true
  /\ waits_on_empty s
  /\ payloads (stream s) = Some vs.

(** How the generator ends on the sentinel [close o] inserts, on a queue
    with no earlier failure. *)
Definition ending (o : EndOptions) : Iterator :=
  match withError o with
  | Some err => Thrown (Some err)
  | None => Returned
  end.

(** The entries the loop ends on. *)
Definition sentinel (e : Enqueueable) : bool :=
  match e with
  | END | ERROR => true
  | _ => false
  end.

(** What every state the public operations lead to satisfies: [#resolve]
    is set exactly while the generator waits; it waits only on an empty
    buffer of a queue that is not closed; and on a closed queue a generator
    that can still run has a sentinel ahead of it. *)
Definition consistent (s : AsyncQueue) : Prop :=
  resolve s = waiting (iterator s)
  /\ (iterator s = Waiting -> queue s = [] /\ closed s = false)
  /\ (closed s = true -> work s <> 0 -> existsb sentinel (stream s) = true).

(** [undefined] has not been thrown, and no [ERROR] marker is ahead of the
    generator while no failure is recorded. *)
Definition marker_has_failure (s : AsyncQueue) : Prop :=
  iterator s <> Thrown None
  /\ (error s = None -> ~ In ERROR (stream s)).

(** ** Reported failures *)

(** The failures a call hands to [#handleError]: [push] with no argument
    reports [noArgumentsError], [close] reports its [withError]; a call on
    a closed queue runs [() => {}] and reports nothing. *)
Definition reports (c : Call) (s : AsyncQueue) : list Error :=
  if closed s then []
  else match c with
       | Push [] => [noArgumentsError]
       | Close o => match withError o with Some err => [err] | None => [] end
       | _ => []
       end.

(** The failures reported while the schedule [cs] runs from [s]. *)
Fixpoint reported (cs : list Call) (s : AsyncQueue) : list Error :=
  match cs with
  | [] => []
  | c :: cs' => reports c s ++ reported cs' (fst (step c s))
  end.

(** The method calls, as opposed to resumptions of the generator. *)
Definition producer_call (c : Call) : bool :=
  match c with
  | Next => false
  | _ => true
  end.

(** The failures [es] handed to [#handleError] one after the other. *)
Definition handleErrors (es : list Error) (s : AsyncQueue) : AsyncQueue :=
  fold_left (fun s' err => handleError err s') es s.

(** No argument of the [push] is the symbol [ERROR] itself. *)
Definition pushes_no_ERROR (data : list Pushable) : bool :=
  forallb (fun d => match d with ErrorSymbol => false | _ => true end) data.

(** No [push] of the schedule is handed the symbol [ERROR] itself. *)
Definition never_pushes_ERROR (cs : list Call) : bool :=
  forallb (fun c => match c with
                    | Push data => pushes_no_ERROR data
                    | _ => true
                    end) cs.

(** ** Construction from a promise *)

(** How the [streamPromise] handed to the constructor settles; the reason
    of a rejection is what the reaction passes on as [withError]. *)
Inductive Settlement : Type :=
| Resolves
| RejectsWith (err : Error).

(** [streamPromise?.catch?.(err => this.close({ withError: err }))
                 ?.finally?.(() => this.close())]:
    the calls the two reactions make once the promise has settled, with
    whatever happens [between] the reaction of [catch] and the one of
    [finally].  A fulfilled promise passes [catch] by. *)
Definition settled (p : Settlement) (between : list Call) : list Call :=
  match p with
  | RejectsWith err => Close (failing err) :: between ++ [Close noOptions]
  | Resolves => [Close noOptions]
  end.

(** ** The rest of the class, and entries the loop stops at *)

(** [get length() { return this.#queue.length }] *)
Definition length (s : AsyncQueue) : nat := List.length (queue s).

(** The number of entries (at most one) that have left the buffer for the
    waiter and that the loop has not continued with yet. *)
Definition in_hand (s : AsyncQueue) : nat :=
  match iterator s with
  | Resumed _ => 1
  | _ => 0
  end.

(** The calls that insert at the tail, if at all: every call but a [close]
    with [immediately] set. *)
Definition keeps_order (c : Call) : bool :=
  match c with
  | Close o => negb (immediately o)
  | _ => true
  end.

(** A failure state whose first reported failure is [noArgumentsError]. *)
Definition begins_with_noArguments (err : option Error) : Prop :=
  err = Some noArgumentsError
  \/ exists es, err = Some (AggregateError (noArgumentsError :: es)).

(** How the generator is left by an entry that yields no payload. *)
Definition ends_as (e : Enqueueable) (it : Iterator) : Prop :=
  match e with
  | END => it = Returned
  | ERROR =>
      exists x, it = Thrown (Some x) /\ begins_with_noArguments (Some x)
  | Pending (Rejected reason) => it = Thrown (Some reason)
  | Pending Unsettled => it = Hung
  | _ => False
  end.

(** The payloads [vs], then the entry [e], are what is ahead of the
    generator of [s] (whatever follows [e]); or it has ended on [e]. *)
Definition blocked_by (e : Enqueueable) (s : AsyncQueue) (vs : list T)
    : Prop :=
  waits_on_empty s
  /\ resolve s = waiting (iterator s)
  /\ (e = ERROR -> begins_with_noArguments (error s))
  /\ ((exists pre post,
         running (iterator s) = true
         /\ stream s = pre ++ e :: post
         /\ payloads pre = Some vs)
      \/ (vs = [] /\ ends_as e (iterator s))).

End Queue.

Arguments Fulfilled {T} v.
Arguments Rejected {T} reason.
Arguments Unsettled {T}.
Arguments Now {T} v.
Arguments Later {T} p.
Arguments EndSymbol {T}.
Arguments ErrorSymbol {T}.
Arguments Value {T} v.
Arguments Pending {T} p.
Arguments END {T}.
Arguments ERROR {T}.
Arguments Ready {T}.
Arguments Waiting {T}.
Arguments Resumed {T} value.
Arguments Returned {T}.
Arguments Thrown {T} exn.
Arguments Hung {T}.
Arguments Push {T} data.
Arguments Close {T} o.
Arguments Next {T}.
Arguments fresh {T}.
Arguments queue {T} a.
Arguments resolve {T} a.
Arguments error {T} a.
Arguments closed {T} a.
Arguments iterator {T} a.
Arguments enqueueable {T} d.
Arguments set_iterator {T} it s.
Arguments set_queue {T} q s.
Arguments handleError {T} err s.
Arguments resume {T} value it.
Arguments enqueue {T} immediate d ds s.
Arguments push_body {T} data s.
Arguments close_body {T} o s.
Arguments push {T} data s.
Arguments close {T} o s.
Arguments await {T} p k s.
Arguments loop_body {T} value s.
Arguments after_await {T} value s.
Arguments next {T} s.
Arguments handed_out {T} y.
Arguments step {T} c s.
Arguments run {T} cs s.
Arguments consume {T} s.
Arguments for_await {T} cs.
Arguments stream {T} s.
Arguments payload {T} e.
Arguments payloads {T} es.
Arguments outcome {T} err es.
Arguments remaining {T} s.
Arguments waits_on_empty {T} s.
Arguments work {T} s.
Arguments fed {T} cs.
Arguments running {T} it.
Arguments waiting {T} it.
Arguments feeding {T} s vs.
Arguments ending {T} o.
Arguments sentinel {T} e.
Arguments consistent {T} s.
Arguments marker_has_failure {T} s.
Arguments reports {T} c s.
Arguments reported {T} cs s.
Arguments producer_call {T} c.
Arguments handleErrors {T} es s.
Arguments pushes_no_ERROR {T} data.
Arguments never_pushes_ERROR {T} cs.
Arguments settled {T} p between.
Arguments length {T} s.
Arguments in_hand {T} s.
Arguments keeps_order {T} c.
Arguments ends_as {T} e it.
Arguments blocked_by {T} e s vs.

Ltac break_state s :=
  let q := fresh "q" in
  let r := fresh "r" in
  let e := fresh "err" in
  let c := fresh "c" in
  let it := fresh "it" in
  destruct s as [q r e c it]; simpl in *.

(** ** The model on small inputs *)

Example push_push_close :
  for_await [Push [Now 1; Now 2]; Push [Now 3]; Close noOptions]
  = ([1; 2; 3], Returned).
Proof. reflexivity. Qed.

Example handoff_then_close :
  for_await [Next; Push [Now 1; Later (Fulfilled 2)]; Next; Next; Next;
             Push [Now 3]; Close noOptions]
  = ([1; 2; 3], Returned).
Proof. reflexivity. Qed.

Example close_immediately :
  for_await [Push [Now 1; Now 2];
             Close {| immediately := true; withError := None |}]
  = ([], Returned).
Proof. reflexivity. Qed.

Example close_with_error :
  for_await [Push [Now 1]; Close (failing (PlainError "E"%string))]
  = ([1], Thrown (Some (PlainError "E"%string))).
Proof. reflexivity. Qed.

Example push_nothing_then_close :
  queue (close noOptions (push [] (@fresh nat))) = [ERROR; END].
Proof. reflexivity. Qed.

(** ** Facts about the loop *)

Section Facts.

Variable T : Type.

Lemma run_app (a b : list (Call T)) (s : AsyncQueue T) :
  run (a ++ b) s =
  let '(s1, ys) := run a s in
  let '(s2, zs) := run b s1 in
  (s2, ys ++ zs).
Proof.
  revert s. induction a as [|c a IH]; intros s; simpl.
  - destruct (run b s); reflexivity.
  - destruct (step c s) as [s1 ys]. rewrite IH.
    destruct (run a s1) as [s2 zs]. destruct (run b s2) as [s3 ws].
    now rewrite app_assoc.
Qed.

Lemma payloads_app (a b : list (Enqueueable T)) :
  payloads (a ++ b) =
  match payloads a, payloads b with
  | Some x, Some y => Some (x ++ y)
  | _, _ => None
  end.
Proof.
  induction a as [|e a IH]; simpl.
  - now destruct (payloads b).
  - destruct (payload e); [|reflexivity]. rewrite IH.
    destruct (payloads a), (payloads b); reflexivity.
Qed.

Lemma outcome_payloads (err : option Error) (es rest : list (Enqueueable T))
    {vs : list T} :
  payloads es = Some vs ->
  outcome err (es ++ rest) =
  (vs ++ fst (outcome err rest), snd (outcome err rest)).
Proof.
  revert vs. induction es as [|e es IH]; intros vs H; simpl in *.
  - injection H as <-. now destruct (outcome err rest).
  - destruct (payload e) as [v|] eqn:Hv; [|discriminate].
    destruct (payloads es) as [ws|]; [|discriminate].
    injection H as <-. specialize (IH ws eq_refl).
    destruct e as [v'|[v'| |]| |]; simpl in Hv; try discriminate;
      injection Hv as ->; rewrite IH; reflexivity.
Qed.

(** One resumption hands out the first of the remaining payloads, or moves
    the generator to the state the remaining entries lead to. *)
Lemma next_remaining (s : AsyncQueue T) :
  waits_on_empty s ->
  fst (remaining s) = handed_out (snd (next s)) ++ fst (remaining (fst (next s)))
  /\ snd (remaining s) = snd (remaining (fst (next s)))
  /\ waits_on_empty (fst (next s))
  /\ closed (fst (next s)) = closed s
  /\ error (fst (next s)) = error s.
Proof.
  unfold waits_on_empty, remaining, stream, next. break_state s.
  intros Hw. destruct it as [| |value| | |]; simpl.
  - destruct q as [|value rest]; simpl.
    + repeat split; reflexivity.
    + destruct value as [v|[v|reason|]| |]; simpl;
        try (destruct (outcome err rest)); simpl;
        repeat split; try reflexivity; intros; discriminate.
  - rewrite (Hw eq_refl). simpl. repeat split; reflexivity.
  - destruct value as [v|[v|reason|]| |]; simpl;
      try (destruct (outcome err q)); simpl;
      repeat split; try reflexivity; intros; discriminate.
  - repeat split; try reflexivity; intros; discriminate.
  - repeat split; try reflexivity; intros; discriminate.
  - repeat split; try reflexivity; intros; discriminate.
Qed.

Lemma next_work (s : AsyncQueue T) :
  work (fst (next s)) <= pred (work s).
Proof.
  unfold work, next. break_state s.
  destruct it as [| |value| | |]; simpl; try lia.
  - destruct q as [|value rest]; simpl; [lia|].
    destruct value as [v|[v|reason|]| |]; simpl; lia.
  - destruct value as [v|[v|reason|]| |]; simpl; lia.
Qed.

Lemma run_nexts (n : nat) (s : AsyncQueue T) :
  waits_on_empty s ->
  fst (remaining s) =
    snd (run (repeat Next n) s) ++ fst (remaining (fst (run (repeat Next n) s)))
  /\ snd (remaining s) = snd (remaining (fst (run (repeat Next n) s)))
  /\ waits_on_empty (fst (run (repeat Next n) s))
  /\ work (fst (run (repeat Next n) s)) <= work s - n.
Proof.
  revert s. induction n as [|n IH]; intros s Hw; simpl.
  - repeat split; trivial; lia.
  - destruct (next_remaining s Hw) as (Hy & Hi & Hw' & _ & _).
    pose proof (next_work s) as Hk.
    destruct (next s) as [s1 y]; simpl in *.
    destruct (IH s1 Hw') as (Hy' & Hi' & Hw'' & Hk').
    destruct (run (repeat Next n) s1) as [s2 zs]; simpl in *.
    repeat split; trivial.
    + rewrite Hy, Hy'. now rewrite app_assoc.
    + congruence.
    + lia.
Qed.

Lemma remaining_at_rest (s : AsyncQueue T) :
  waits_on_empty s -> work s = 0 -> remaining s = ([], iterator s).
Proof.
  unfold waits_on_empty, remaining, stream, work. break_state s.
  intros Hw Hk. destruct it; try discriminate; trivial.
  now rewrite (Hw eq_refl).
Qed.

(** The loop, left alone, yields exactly what remains and stops. *)
Lemma consume_remaining {s : AsyncQueue T} :
  waits_on_empty s ->
  snd (consume s) = fst (remaining s)
  /\ iterator (fst (consume s)) = snd (remaining s)
  /\ work (fst (consume s)) = 0.
Proof.
  intros Hw. unfold consume.
  destruct (run_nexts (2 + List.length (queue s)) s Hw) as (Hy & Hi & Hw' & Hk).
  assert (H0 : work (fst (run (repeat Next (2 + List.length (queue s))) s)) = 0).
  { assert (work s <= 2 + List.length (queue s))
      by (unfold work; destruct (iterator s); lia).
    lia. }
  rewrite (remaining_at_rest _ Hw' H0) in Hy, Hi. simpl in Hy, Hi.
  rewrite app_nil_r in Hy. auto.
Qed.

(** *** The feeding phase *)

Lemma fresh_feeding : feeding (@fresh T) [].
Proof. unfold feeding, waits_on_empty; simpl. repeat split; trivial. Qed.

Lemma feeding_next {s : AsyncQueue T} {vs : list T} :
  feeding s vs ->
  exists vs', vs = handed_out (snd (next s)) ++ vs' /\ feeding (fst (next s)) vs'.
Proof.
  unfold feeding, waits_on_empty, stream, next. break_state s.
  intros (-> & -> & -> & Hrun & Hw & Hp).
  destruct it as [| |value| | |]; simpl in *; try discriminate.
  - destruct q as [|value rest]; simpl in *.
    + exists []. injection Hp as <-. repeat split; trivial.
    + destruct (payload value) as [v|] eqn:Hv; [|discriminate].
      destruct (payloads rest) as [ws|] eqn:Hr; [|discriminate].
      injection Hp as <-. exists ws.
      destruct value as [v'|[v'| |]| |]; simpl in Hv; try discriminate;
        injection Hv as ->; simpl; repeat split; trivial; discriminate.
  - exists vs. repeat split; trivial.
  - destruct (payload value) as [v|] eqn:Hv; [|discriminate].
    destruct (payloads q) as [ws|] eqn:Hr; [|discriminate].
    injection Hp as <-. exists ws.
    destruct value as [v'|[v'| |]| |]; simpl in Hv; try discriminate;
      injection Hv as ->; simpl; repeat split; trivial; discriminate.
Qed.

Lemma feeding_push {s : AsyncQueue T} {vs ws : list T}
    {d : Pushable T} {ds : list (Pushable T)} :
  feeding s vs ->
  payloads (map enqueueable (d :: ds)) = Some ws ->
  feeding (push (d :: ds) s) (vs ++ ws).
Proof.
  unfold feeding, waits_on_empty, stream, push, push_body, enqueue.
  break_state s. intros (-> & -> & -> & Hrun & Hw & Hp) Hd.
  destruct it as [| |value| | |]; simpl in *; try discriminate.
  - repeat split; trivial; try discriminate.
    change (payloads (q ++ map enqueueable (d :: ds)) = Some (vs ++ ws)).
    rewrite payloads_app, Hp. simpl. now rewrite Hd.
  - rewrite (Hw eq_refl) in *. simpl in *. injection Hp as <-.
    repeat split; trivial; discriminate.
  - repeat split; trivial; try discriminate.
    change (payloads ((value :: q) ++ map enqueueable (d :: ds))
            = Some (vs ++ ws)).
    rewrite payloads_app. simpl. simpl in Hp, Hd. now rewrite Hp, Hd.
Qed.

Lemma feeding_run (cs : list (Call T)) {s : AsyncQueue T} {vs ws : list T} :
  feeding s vs ->
  fed cs = Some ws ->
  exists rest,
    snd (run cs s) ++ rest = vs ++ ws /\ feeding (fst (run cs s)) rest.
Proof.
  revert s vs ws.
  induction cs as [|c cs IH]; intros s vs ws Hs Hf; cbn [run fed step] in *.
  - injection Hf as <-. exists vs. now rewrite app_nil_r.
  - destruct c as [[|d ds]|o|]; try discriminate; cbn [run fed step] in *.
    + destruct (payloads (map enqueueable (d :: ds))) as [xs|] eqn:Hd;
        [|discriminate].
      destruct (fed cs) as [zs|] eqn:Hz; [|discriminate].
      injection Hf as <-.
      destruct (IH _ _ _ (feeding_push Hs Hd) eq_refl) as (rest & Hy & Hr).
      destruct (run cs (push (d :: ds) s)) as [s2 ys]; simpl in *.
      exists rest. split; trivial. now rewrite Hy, app_assoc.
    + destruct (feeding_next Hs) as (vs' & Hv & Hs').
      destruct (next s) as [s1 y]; simpl in *.
      destruct (IH _ _ _ Hs' Hf) as (rest & Hy & Hr).
      destruct (run cs s1) as [s2 ys]; simpl in *.
      exists rest. split; trivial. now rewrite <- app_assoc, Hy, Hv, app_assoc.
Qed.

(** A [close] that is not immediate puts its sentinel behind everything
    fed so far. *)
Lemma feeding_close {s : AsyncQueue T} {vs : list T} {o : EndOptions} :
  feeding s vs ->
  immediately o = false ->
  waits_on_empty (close o s)
  /\ closed (close o s) = true
  /\ remaining (close o s) = (vs, ending o).
Proof.
  unfold feeding, waits_on_empty, remaining, stream, close, close_body,
    enqueue, ending.
  break_state s. destruct o as [imm we]; simpl.
  intros (-> & -> & -> & Hrun & Hw & Hp) ->.
  destruct it as [| |value| | |]; simpl in *; try discriminate.
  - destruct we as [e|]; simpl; (split; [discriminate|split; [reflexivity|]]).
    + rewrite (outcome_payloads (Some e) q [ERROR] Hp). simpl.
      now rewrite app_nil_r.
    + rewrite (outcome_payloads None q [END] Hp). simpl.
      now rewrite app_nil_r.
  - rewrite (Hw eq_refl) in *. simpl in Hp. injection Hp as <-.
    destruct we as [e|]; simpl; (split; [discriminate|split; reflexivity]).
  - destruct (payload value) as [v|] eqn:Hv; [|discriminate].
    destruct (payloads q) as [ws|] eqn:Hq; [|discriminate].
    injection Hp as <-.
    destruct we as [e|]; simpl; (split; [discriminate|split; [reflexivity|]]);
      destruct value as [v'|[v'| |]| |]; simpl in Hv; try discriminate;
      injection Hv as ->; rewrite (outcome_payloads _ q _ Hq); simpl;
      now rewrite app_nil_r.
Qed.

(** *** After [close] *)

Lemma closed_step (c : Call T) (s : AsyncQueue T) :
  waits_on_empty s ->
  closed s = true ->
  fst (remaining s) = snd (step c s) ++ fst (remaining (fst (step c s)))
  /\ snd (remaining s) = snd (remaining (fst (step c s)))
  /\ waits_on_empty (fst (step c s))
  /\ closed (fst (step c s)) = true.
Proof.
  intros Hw Hc. destruct c as [data|o|]; simpl.
  - unfold push. rewrite Hc. auto.
  - unfold close. rewrite Hc. auto.
  - destruct (next_remaining s Hw) as (Hy & Hi & Hw' & Hc' & _).
    destruct (next s) as [s1 y]; simpl in *.
    repeat split; trivial. congruence.
Qed.

Lemma closed_run (cs : list (Call T)) {s : AsyncQueue T} :
  waits_on_empty s ->
  closed s = true ->
  fst (remaining s) = snd (run cs s) ++ fst (remaining (fst (run cs s)))
  /\ snd (remaining s) = snd (remaining (fst (run cs s)))
  /\ waits_on_empty (fst (run cs s))
  /\ closed (fst (run cs s)) = true.
Proof.
  revert s. induction cs as [|c cs IH]; intros s Hw Hc; simpl.
  - auto.
  - destruct (closed_step c s Hw Hc) as (Hy & Hi & Hw' & Hc').
    destruct (step c s) as [s1 ys]; simpl in *.
    destruct (IH s1 Hw' Hc') as (Hy' & Hi' & Hw'' & Hc'').
    destruct (run cs s1) as [s2 zs]; simpl in *.
    repeat split; trivial.
    + now rewrite Hy, Hy', app_assoc.
    + congruence.
Qed.

(** Feeding, one [close] that is not immediate, then anything: the
    consumer gets every payload fed, in order, and the generator ends as
    the sentinel says. *)
Lemma fed_then_closed (before after : list (Call T)) (vs : list T)
    (o : EndOptions) :
  fed before = Some vs ->
  immediately o = false ->
  for_await (before ++ Close o :: after) = (vs, ending o).
Proof.
  intros Hf Ho. unfold for_await. rewrite run_app.
  destruct (feeding_run before fresh_feeding Hf) as (rest & Hy & Hs).
  destruct (run before fresh) as [s1 ys]; simpl in *.
  destruct (feeding_close Hs Ho) as (Hw & Hc & Hr).
  destruct (closed_run after Hw Hc) as (Hy' & Hi' & Hw' & _).
  destruct (run after (close o s1)) as [s2 zs]; simpl in *.
  destruct (consume_remaining Hw') as (Hz & Hi & _).
  destruct (consume s2) as [s3 ws]; simpl in *.
  rewrite Hr in Hy', Hi'. simpl in Hy', Hi'.
  f_equal.
  - rewrite <- app_assoc, Hz, <- Hy'. exact Hy.
  - congruence.
Qed.

(** *** Reachable states *)

Lemma fresh_consistent : consistent (@fresh T).
Proof.
  unfold consistent; simpl. repeat split; trivial; discriminate.
Qed.

Lemma existsb_sentinel_push (q : list (Enqueueable T)) (m : Enqueueable T) :
  sentinel m = true -> existsb sentinel (q ++ [m]) = true.
Proof.
  intros Hm. rewrite existsb_app. simpl. rewrite Hm.
  now rewrite orb_true_r.
Qed.

Lemma step_consistent (call : Call T) {s : AsyncQueue T} :
  consistent s -> consistent (fst (step call s)).
Proof.
  unfold consistent, stream, work. break_state s.
  intros (-> & Hw & Hs). destruct call as [data|o|]; simpl.
  - unfold push, push_body, enqueue; simpl.
    destruct c; simpl; [auto|].
    destruct data as [|d ds]; destruct it; simpl in *;
      repeat split; trivial; intros; discriminate.
  - unfold close, close_body, enqueue; simpl.
    destruct c; simpl; [auto|].
    destruct o as [imm [e|]]; destruct it, imm; simpl in *;
      try (destruct (Hw eq_refl) as [-> _]; simpl);
      repeat split; trivial; intros; try discriminate;
      try apply existsb_sentinel_push; trivial;
      try (now rewrite existsb_sentinel_push; trivial; rewrite orb_true_r);
      apply orb_true_r.
  - unfold next; simpl. destruct it as [| |value| | |]; simpl in *.
    + destruct q as [|value rest]; simpl in *.
      * repeat split; trivial; try discriminate.
        -- destruct c; trivial. now specialize (Hs eq_refl (Nat.neq_succ_0 _)).
        -- intros _ H0. now contradiction H0.
      * destruct value as [v|[v|reason|]| |]; simpl in *;
          repeat split; trivial; intros; try discriminate; try lia; auto.
    + repeat split; trivial; apply Hw; trivial.
    + destruct value as [v|[v|reason|]| |]; simpl in *;
        repeat split; trivial; intros; try discriminate; try lia; auto.
    + repeat split; trivial; intros; discriminate.
    + repeat split; trivial; intros; discriminate.
    + repeat split; trivial; intros; discriminate.
Qed.

Lemma run_consistent (cs : list (Call T)) {s : AsyncQueue T} :
  consistent s -> consistent (fst (run cs s)).
Proof.
  revert s. induction cs as [|c cs IH]; intros s Hs; simpl; trivial.
  pose proof (step_consistent c Hs) as H1.
  destruct (step c s) as [s1 ys]; simpl in *.
  specialize (IH s1 H1). now destruct (run cs s1).
Qed.

Lemma not_In_ERROR_pushed (data : list (Pushable T)) :
  pushes_no_ERROR data = true -> ~ In ERROR (map enqueueable data).
Proof.
  induction data as [|d ds IH]; simpl; [tauto|].
  intros Hd. apply andb_prop in Hd. destruct Hd as [Hd Hds].
  intros [H|H]; [destruct d; discriminate|now apply IH].
Qed.

(** [#enqueue] puts nothing in front of the generator but [data]. *)
Lemma stream_enqueue (imm : bool) (d : Enqueueable T)
    (ds : list (Enqueueable T)) (s : AsyncQueue T) (x : Enqueueable T) :
  In x (stream (enqueue imm d ds s)) -> In x (stream s) \/ In x (d :: ds).
Proof.
  unfold stream, enqueue. break_state s.
  destruct r, imm, it, q; simpl; intros H;
    repeat (rewrite ?in_app_iff in H; simpl in H);
    rewrite ?in_app_iff; simpl; tauto.
Qed.

Lemma enqueue_fields (imm : bool) (d : Enqueueable T)
    (ds : list (Enqueueable T)) (s : AsyncQueue T) :
  error (enqueue imm d ds s) = error s
  /\ closed (enqueue imm d ds s) = closed s
  /\ resolve (enqueue imm d ds s) = false
  /\ (forall exn, iterator (enqueue imm d ds s) = Thrown exn ->
                  iterator s = Thrown exn).
Proof.
  unfold enqueue. break_state s.
  destruct r; simpl; repeat split; trivial.
  destruct it; simpl; trivial; discriminate.
Qed.

Lemma handleError_records (err : Error) (s : AsyncQueue T) :
  error (handleError err s) <> None.
Proof.
  unfold handleError. break_state s. now destruct err0 as [[m|es]|].
Qed.

Lemma next_fields (s : AsyncQueue T) :
  error (fst (next s)) = error s /\ closed (fst (next s)) = closed s.
Proof.
  unfold next. break_state s.
  destruct it as [| |value| | |]; simpl; auto.
  - destruct q as [|value rest]; simpl; auto.
    destruct value as [v|[v|reason|]| |]; simpl; auto.
  - destruct value as [v|[v|reason|]| |]; simpl; auto.
Qed.

Lemma step_marker (call : Call T) {s : AsyncQueue T} :
  never_pushes_ERROR [call] = true ->
  marker_has_failure s -> marker_has_failure (fst (step call s)).
Proof.
  unfold marker_has_failure. intros Hcall [Hi Hs].
  destruct call as [data|o|]; simpl in *.
  - unfold push. destruct (closed s); [auto|].
    unfold push_body. destruct data as [|d ds].
    + destruct (enqueue_fields false ERROR [] s) as (_ & _ & _ & Ht).
      split.
      * intros H. now apply Ht in H.
      * intros H. now apply handleError_records in H.
    + destruct (enqueue_fields false (enqueueable d) (map enqueueable ds) s)
        as (He & _ & _ & Ht).
      rewrite He. split.
      * intros H. now apply Ht in H.
      * intros Hn H. apply stream_enqueue in H. destruct H as [H|H].
        -- now apply (Hs Hn).
        -- apply (not_In_ERROR_pushed (d :: ds)); trivial.
           now apply andb_prop in Hcall.
  - unfold close. destruct (closed s); [auto|].
    unfold close_body. destruct o as [imm [e|]]; simpl.
    + destruct (enqueue_fields imm ERROR [] (handleError e s))
        as (He & _ & _ & Ht).
      rewrite He. split.
      * intros H. now apply Ht in H.
      * intros H. now apply handleError_records in H.
    + destruct (enqueue_fields imm END [] s) as (He & _ & _ & Ht).
      rewrite He. split.
      * intros H. now apply Ht in H.
      * intros Hn.
        change (~ In ERROR (stream (enqueue imm END [] s))).
        intros H. apply stream_enqueue in H.
        destruct H as [H|[H|[]]]; [now apply (Hs Hn)|discriminate].
  - revert Hi Hs. unfold next, stream. break_state s. intros Hi Hs.
    destruct it as [| |value| | |]; simpl.
    + destruct q as [|value rest]; simpl.
      * split; [discriminate|tauto].
      * destruct value as [v|[v|reason|]| |]; simpl; simpl in Hs;
          (split; [try discriminate|intros Hn; specialize (Hs Hn); tauto]).
        destruct err; [discriminate|]. specialize (Hs eq_refl). tauto.
    + auto.
    + destruct value as [v|[v|reason|]| |]; simpl; simpl in Hs;
          (split; [try discriminate|intros Hn; specialize (Hs Hn); tauto]).
      destruct err; [discriminate|]. specialize (Hs eq_refl). tauto.
    + auto.
    + auto.
    + auto.
Qed.

Lemma run_marker (cs : list (Call T)) {s : AsyncQueue T} :
  never_pushes_ERROR cs = true ->
  marker_has_failure s -> marker_has_failure (fst (run cs s)).
Proof.
  revert s. induction cs as [|c cs IH]; intros s Hcs Hs; simpl; trivial.
  unfold never_pushes_ERROR in Hcs. cbn [forallb] in Hcs.
  apply andb_prop in Hcs. destruct Hcs as [Hc Hcs].
  assert (Hc1 : never_pushes_ERROR [c] = true).
  { unfold never_pushes_ERROR. cbn [forallb]. now rewrite Hc. }
  pose proof (step_marker c Hc1 Hs) as H1.
  destruct (step c s) as [s1 ys]; simpl in *.
  specialize (IH s1 Hcs H1). now destruct (run cs s1).
Qed.

(** *** Accumulating failures *)

(** [#handleError] extends the accumulated failures by one, as long as a
    single failure recorded so far is not itself an [AggregateError]. *)
Lemma handleError_accumulated (log : list Error) (err : Error)
    (s : AsyncQueue T) :
  error s = accumulated log ->
  (forall e, log = [e] -> isAggregateError e = false) ->
  error (handleError err s) = accumulated (log ++ [err]).
Proof.
  unfold handleError. break_state s. intros -> Hp.
  destruct log as [|a [|b l]]; simpl; trivial.
  specialize (Hp a eq_refl). now destruct a.
Qed.

Lemma handleError_error (err : Error) (s1 s2 : AsyncQueue T) :
  error s1 = error s2 -> error (handleError err s1) = error (handleError err s2).
Proof. unfold handleError; simpl. now intros ->. Qed.

Lemma run_accumulates (cs : list (Call T)) (s : AsyncQueue T)
    (log : list Error) :
  error s = accumulated log ->
  (closed s = false -> Forall (fun e => isAggregateError e = false) log) ->
  error (fst (run cs s)) = accumulated (log ++ reported cs s).
Proof.
  revert s log. induction cs as [|c cs IH]; intros s log He Hl.
  - simpl. now rewrite app_nil_r.
  - assert (Hone : forall e, closed s = false -> log = [e] ->
                             isAggregateError e = false).
    { intros e Hc ->. specialize (Hl Hc). now inversion Hl. }
    cbn [run reported].
    assert (Hstep : error (fst (step c s)) = accumulated (log ++ reports c s)
                    /\ (closed (fst (step c s)) = false ->
                        Forall (fun e => isAggregateError e = false)
                               (log ++ reports c s))).
    { unfold reports. destruct c as [data|o|]; simpl.
      - unfold push. destruct (closed s) eqn:Hc.
        + rewrite app_nil_r. split; [trivial|rewrite Hc; discriminate].
        + unfold push_body. destruct data as [|d ds].
          * destruct (enqueue_fields false ERROR [] s) as (Hq & Hk & _).
            split.
            -- rewrite (handleError_error _ _ s Hq).
               apply handleError_accumulated; auto.
            -- intros _. apply Forall_app. split; auto.
          * destruct (enqueue_fields false (enqueueable d)
                        (map enqueueable ds) s) as (Hq & Hk & _).
            rewrite app_nil_r, Hq, Hk. auto.
      - unfold close. destruct (closed s) eqn:Hc.
        + rewrite app_nil_r. split; [trivial|rewrite Hc; discriminate].
        + unfold close_body. destruct o as [imm [e|]]; simpl.
          * destruct (enqueue_fields imm ERROR [] (handleError e s))
              as (Hq & _).
            rewrite Hq. split; [|discriminate].
            apply handleError_accumulated; auto.
          * destruct (enqueue_fields imm END [] s) as (Hq & _).
            rewrite Hq, app_nil_r. split; [trivial|discriminate].
      - destruct (next_fields s) as [Hq Hk].
        destruct (next s) as [s1 y]; simpl in *.
        rewrite Hq, Hk. destruct (closed s); rewrite app_nil_r; auto. }
    destruct Hstep as [He1 Hl1].
    specialize (IH (fst (step c s)) _ He1 Hl1).
    destruct (step c s) as [s1 ys]; simpl in *.
    destruct (run cs s1) as [s2 zs]; simpl in *.
    now rewrite app_assoc.
Qed.

(** *** Schedules without the producer, or without the consumer *)

Lemma run_nexts_at_rest (n : nat) (s : AsyncQueue T) :
  work s = 0 -> run (repeat Next n) s = (s, []).
Proof.
  intros Hk. induction n as [|n IH]; simpl; trivial.
  assert (Hn : next s = (s, None)).
  { unfold next. unfold work in Hk. now destruct (iterator s). }
  now rewrite Hn, IH.
Qed.

Lemma run_next_cons (n : nat) (s : AsyncQueue T) :
  run (repeat Next (S n)) s =
  let '(s1, y) := next s in
  let '(s2, zs) := run (repeat Next n) s1 in
  (s2, handed_out y ++ zs).
Proof. simpl. now destruct (next s). Qed.

Lemma fed_nexts (n : nat) (cs : list (Call T)) :
  fed (repeat Next n ++ cs) = fed cs.
Proof. induction n; simpl; trivial. Qed.

Lemma run_producer_closed (cs : list (Call T)) (s : AsyncQueue T) :
  closed s = true ->
  forallb producer_call cs = true ->
  run cs s = (s, []).
Proof.
  intros Hc. induction cs as [|c cs IH]; simpl; trivial.
  intros H. apply andb_prop in H. destruct H as [Hp Hcs].
  destruct c as [data|o|]; simpl in *; try discriminate.
  - unfold push. rewrite Hc. now rewrite (IH Hcs).
  - unfold close. rewrite Hc. now rewrite (IH Hcs).
Qed.

(** Pushes alone, with the generator not started, pile up in the buffer. *)
Lemma run_pushes (pushes : list (list (Pushable T))) (s : AsyncQueue T) :
  iterator s = Ready -> resolve s = false -> closed s = false ->
  iterator (fst (run (map Push pushes) s)) = Ready
  /\ resolve (fst (run (map Push pushes) s)) = false
  /\ closed (fst (run (map Push pushes) s)) = false
  /\ snd (run (map Push pushes) s) = []
  /\ (Forall (fun data => data <> []) pushes ->
      queue (fst (run (map Push pushes) s))
      = queue s ++ map enqueueable (List.concat pushes)).
Proof.
  revert s. induction pushes as [|data pushes IH]; intros s Hi Hr Hc.
  - simpl. rewrite app_nil_r. auto.
  - cbn [map run step].
    assert (H1 : iterator (push data s) = Ready
                 /\ resolve (push data s) = false
                 /\ closed (push data s) = false
                 /\ (data <> [] ->
                     queue (push data s) = queue s ++ map enqueueable data)).
    { unfold push, push_body, enqueue, handleError.
      rewrite Hc, Hr. destruct data as [|d ds]; simpl; auto.
      repeat split; trivial. congruence. }
    destruct H1 as (Hi1 & Hr1 & Hc1 & Hq1).
    destruct (IH _ Hi1 Hr1 Hc1) as (Hi2 & Hr2 & Hc2 & Hy2 & Hq2).
    destruct (run (map Push pushes) (push data s)) as [s2 ys]; simpl in *.
    repeat split; trivial.
    intros Hall. inversion Hall; subst.
    rewrite Hq2, Hq1, map_app, app_assoc; trivial.
Qed.

(** ** The claims *)

(** C1.  FIFO order up to a graceful close: on a new queue, whatever way
    resumptions of the loop are interleaved with [push] calls that carry at
    least one value each, once [close()] has been called with no options
    the loop, driven to its end, has yielded exactly the values pushed, in
    the order they were pushed, and has then left through [break] (no
    error raised).  Calls made after the [close] change nothing. *)
Theorem fifo_until_graceful_close (before after : list (Call T))
    (vs : list T) :
  fed before = Some vs ->
  for_await (before ++ Close noOptions :: after) = (vs, Returned).
Proof.
  intros Hfed.
  change (@Returned T) with (@ending T noOptions).
  now apply fed_then_closed.
Qed.

(** C2, as the code has it.  The first [close] on a queue chooses its
    sentinel by its own [withError] argument alone: [ERROR] when the call
    carries a failure, [END] when it does not, whatever failure is already
    recorded.  The failure state after the call is the one before it with
    the argument merged in by [#handleError]; the sentinel goes to the
    tail, or to the head when [immediately] is set, and the head of the
    buffer is handed to a registered waiter. *)
Theorem close_sentinel_follows_argument (s : AsyncQueue T) (o : EndOptions) :
  closed s = false ->
  let mark := match withError o with Some _ => ERROR | None => END end in
  let q := if immediately o then mark :: queue s else queue s ++ [mark] in
  error (close o s)
  = match withError o with
    | Some err => error (handleError err s)
    | None => error s
    end
  /\ (if resolve s
      then queue (close o s) = tl q
           /\ iterator (close o s) = resume (hd mark q) (iterator s)
      else queue (close o s) = q /\ iterator (close o s) = iterator s)
  /\ resolve (close o s) = false
  /\ closed (close o s) = true.
Proof.
  intros Hc. unfold close. rewrite Hc.
  unfold close_body, enqueue, handleError.
  destruct o as [imm [e|]], imm, (resolve s) eqn:Hr; simpl; rewrite ?Hr; simpl;
    repeat split; reflexivity.
Qed.

(** C3.  Immediate close takes precedence: after any sequence of [push]
    calls on a new queue, [close({ immediately: true })] with no failure
    puts [END] in front of the buffer; the loop then yields nothing and
    leaves through [break], and the pushed entries are still in the buffer
    behind the place where it stopped. *)
Theorem immediate_close_yields_nothing (pushes : list (list (Pushable T))) :
  let s := fst (run (map Push pushes) fresh) in
  let s' := close {| immediately := true; withError := None |} s in
  queue s' = END :: queue s
  /\ (Forall (fun data => data <> []) pushes ->
      queue s = map enqueueable (List.concat pushes))
  /\ snd (consume s') = []
  /\ iterator (fst (consume s')) = Returned
  /\ queue (fst (consume s')) = queue s
  /\ for_await (map Push pushes
                ++ [Close {| immediately := true; withError := None |}])
     = ([], Returned).
Proof.
  destruct (run_pushes pushes (@fresh T) eq_refl eq_refl eq_refl)
    as (Hi & Hr & Hc & Hy & Hq).
  assert (Hs' : close {| immediately := true; withError := None |}
                      (fst (run (map Push pushes) fresh))
                = {| queue := END :: queue (fst (run (map Push pushes) fresh));
                     resolve := false;
                     error := error (fst (run (map Push pushes) fresh));
                     closed := true; iterator := Ready |}).
  { unfold close. rewrite Hc. unfold close_body. cbn [withError immediately].
    unfold enqueue. rewrite Hr. simpl. now rewrite Hi. }
  assert (Hcons : consume (close {| immediately := true; withError := None |}
                             (fst (run (map Push pushes) fresh)))
                  = ({| queue := queue (fst (run (map Push pushes) fresh));
                        resolve := false;
                        error := error (fst (run (map Push pushes) fresh));
                        closed := true; iterator := Returned |}, [])).
  { rewrite Hs'. unfold consume. cbn [queue List.length].
    change (2 + S ?n) with (S (2 + n)). rewrite run_next_cons.
    unfold next. cbn [iterator queue loop_body set_queue set_iterator
                      resolve error closed handed_out].
    now rewrite run_nexts_at_rest. }
  cbv zeta. repeat split.
  - now rewrite Hs'.
  - intros Hall. now rewrite (Hq Hall).
  - now rewrite Hcons.
  - now rewrite Hcons.
  - now rewrite Hcons.
  - unfold for_await. rewrite run_app.
    destruct (run (map Push pushes) fresh) as [s1 ys]; simpl in *.
    rewrite Hcons. subst ys. reflexivity.
Qed.

(** Through the methods, the failure state of the queue is built from the
    failures reported to [#handleError], in the order of the reports:
    absent when there was none, the failure itself when there was one, and
    for two or more a single [AggregateError] whose [errors] are exactly
    all of them: [push] reports [noArgumentsError] only, and [close]
    reports at most once, last. *)
Lemma failures_accumulate_in_order (cs : list (Call T)) :
  error (fst (run cs fresh)) = accumulated (reported cs fresh).
Proof.
  change (reported cs fresh) with ([] ++ reported cs (@fresh T)).
  apply run_accumulates; simpl; auto.
Qed.

Lemma handleErrors_aggregate (es errors : list Error) (s : AsyncQueue T) :
  error s = Some (AggregateError errors) ->
  error (handleErrors es s) = Some (AggregateError (errors ++ es)).
Proof.
  revert errors s. unfold handleErrors.
  induction es as [|e es IH]; intros errors s Hs; simpl.
  - now rewrite app_nil_r.
  - rewrite (IH (errors ++ [e])).
    + now rewrite <- app_assoc.
    + unfold handleError; simpl. now rewrite Hs.
Qed.

(** C4, as the code has it.  Failures [e1 .. en] recorded by
    [#handleError], in that order, on a queue with no failure yet: the
    failure state is [e1] itself when [n = 1]; for [n >= 2] it is a single
    [AggregateError] whose [errors] are exactly [e1 .. en] when [e1] is not
    an [AggregateError] itself, and when it is one, it is [e1] with
    [e2 .. en] appended to its own [errors].  In either case every failure
    recorded is kept, in the order of the reports. *)
Theorem recorded_failures_accumulate (s : AsyncQueue T) (e1 : Error)
    (es : list Error) :
  error s = None ->
  error (handleErrors (e1 :: es) s)
  = Some match es with
         | [] => e1
         | _ :: _ =>
             match e1 with
             | AggregateError errors => AggregateError (errors ++ es)
             | PlainError _ => AggregateError (e1 :: es)
             end
         end.
Proof.
  intros Hs. destruct es as [|e2 es].
  - unfold handleErrors, handleError; simpl. now rewrite Hs.
  - change (handleErrors (e1 :: e2 :: es) s)
      with (handleErrors es (handleError e2 (handleError e1 s))).
    destruct e1 as [m|errors].
    + rewrite (handleErrors_aggregate es [PlainError m; e2]).
      * reflexivity.
      * unfold handleError; simpl. now rewrite Hs.
    + rewrite (handleErrors_aggregate es (errors ++ [e2])).
      * now rewrite <- app_assoc.
      * unfold handleError; simpl. now rewrite Hs.
Qed.

(** C5.  [push()] with no argument on a queue that is not closed records
    [noArgumentsError] in the failure state and appends [ERROR] at the tail
    of the buffer (from where the head goes to a registered waiter, as
    after every insertion); the queue is not closed by it: a later [push]
    or [close] still runs its body, and changes the state. *)
Theorem push_without_arguments (s : AsyncQueue T) :
  closed s = false ->
  let q := queue s ++ [ERROR] in
  error (push [] s) = error (handleError noArgumentsError s)
  /\ error (push [] s) <> None
  /\ (if resolve s
      then queue (push [] s) = tl q
           /\ iterator (push [] s) = resume (hd ERROR q) (iterator s)
      else queue (push [] s) = q /\ iterator (push [] s) = iterator s)
  /\ closed (push [] s) = false
  /\ (forall d ds,
        push (d :: ds) (push [] s) = push_body (d :: ds) (push [] s)
        /\ push (d :: ds) (push [] s) <> push [] s)
  /\ (forall o,
        close o (push [] s) = close_body o (push [] s)
        /\ close o (push [] s) <> push [] s).
Proof.
  intros Hc.
  assert (Hk : closed (push [] s) = false).
  { unfold push. rewrite Hc. unfold push_body, enqueue. simpl.
    now destruct (resolve s). }
  assert (Hr : resolve (push [] s) = false).
  { unfold push. rewrite Hc. unfold push_body, enqueue. simpl.
    now destruct (resolve s). }
  cbv zeta. repeat split.
  - unfold push. rewrite Hc. unfold push_body.
    apply handleError_error. apply enqueue_fields.
  - unfold push. rewrite Hc. apply handleError_records.
  - unfold push. rewrite Hc. unfold push_body, enqueue. simpl.
    destruct (resolve s); simpl; auto.
  - exact Hk.
  - unfold push at 1. now rewrite Hk.
  - intros H. apply (f_equal queue) in H. revert H.
    unfold push at 1. rewrite Hk. unfold push_body, enqueue. rewrite Hr.
    simpl. intros H. apply (f_equal (@List.length _)) in H.
    rewrite length_app in H. simpl in H. lia.
  - unfold close. now rewrite Hk.
  - intros H. apply (f_equal closed) in H. revert H.
    unfold close. rewrite Hk. simpl. congruence.
Qed.

(** C6.  [close] is idempotent: once a [close] call has returned, the
    queue is closed, every later [push] or [close] call returns the state
    it was given (buffer, waiter slot, failure and all), so does any
    sequence of them, and the loop driven afterwards sees what it would
    have seen right after the first [close]. *)
Theorem close_is_idempotent (s : AsyncQueue T) (o : EndOptions) :
  let s' := close o s in
  closed s' = true
  /\ (forall data, push data s' = s')
  /\ (forall o', close o' s' = s')
  /\ (forall later, forallb producer_call later = true ->
        run later s' = (s', []))
  /\ (forall later, forallb producer_call later = true ->
        consume (fst (run later s')) = consume s').
Proof.
  assert (Hc : closed (close o s) = true).
  { unfold close. destruct (closed s) eqn:H; trivial. }
  cbv zeta. repeat split; trivial.
  - intros data. unfold push. now rewrite Hc.
  - intros o'. unfold close at 1. now rewrite Hc.
  - intros later H. now apply run_producer_closed.
  - intros later H. now rewrite run_producer_closed.
Qed.

(** C7.  Handoff to the waiter: in every state the public operations lead
    to in which a resolver is registered, the generator is suspended on an
    empty buffer of a queue that is not closed.  A [push] of values then
    resolves it with the head of the buffer after the insertion (the first
    value pushed), leaves the rest in the buffer and clears [#resolve], so
    nothing is ahead of the generator but the values pushed, each once; the
    resumed loop yields that very value.  A [close] likewise hands its
    sentinel over, on which the resumed loop ends. *)
Theorem waiter_gets_head_of_buffer (cs : list (Call T)) :
  let s := fst (run cs fresh) in
  resolve s = true ->
  (iterator s = Waiting /\ queue s = [] /\ closed s = false)
  /\ (forall d ds,
        let s1 := push (d :: ds) s in
        let q := queue s ++ map enqueueable (d :: ds) in
        iterator s1 = Resumed (hd (enqueueable d) q)
        /\ queue s1 = tl q
        /\ resolve s1 = false
        /\ stream s1 = map enqueueable (d :: ds)
        /\ (forall v, payload (enqueueable d) = Some v ->
              next s1 = (set_iterator Ready s1, Some v)))
  /\ (forall o,
        let s1 := close o s in
        let mark := match withError o with Some _ => ERROR | None => END end in
        iterator s1 = Resumed mark
        /\ queue s1 = []
        /\ resolve s1 = false
        /\ next s1
           = (set_iterator (match withError o with
                            | Some _ => Thrown (error s1)
                            | None => Returned
                            end) s1, None)).
Proof.
  cbv zeta. intros Hr.
  destruct (run_consistent cs fresh_consistent) as (Hres & Hw & _).
  assert (Hi : iterator (fst (run cs fresh)) = Waiting).
  { rewrite Hr in Hres. unfold waiting in Hres.
    now destruct (iterator (fst (run cs fresh))). }
  destruct (Hw Hi) as [Hq Hc].
  destruct (fst (run cs fresh)) as [q r err c it]; simpl in *; subst.
  split; [auto|split].
  - intros d ds. unfold push, push_body, enqueue, stream; simpl.
    repeat split; trivial.
    intros v Hv. unfold next; simpl.
    destruct d as [v'|[v'| |]| |]; simpl in Hv; try discriminate;
      now injection Hv as ->.
  - intros [imm [e|]]; unfold close, close_body, enqueue; simpl;
      destruct imm; simpl; repeat split; reflexivity.
Qed.

(** C8.  A promise already fulfilled with [v], pushed and followed by a
    graceful [close], makes the loop yield [v] itself and then end
    normally, whether the generator was resumed before the push (the
    promise is handed to the suspended waiter and unwrapped by its
    [await]) or not (the promise is taken from the buffer and unwrapped by
    [yield]). *)
Theorem fulfilled_promise_is_unwrapped (v : T) (n m : nat)
    (after : list (Call T)) :
  for_await (repeat Next n ++ Push [Later (Fulfilled v)]
               :: repeat Next m ++ Close noOptions :: after)
  = ([v], Returned)
  /\ (let s := push [Later (Fulfilled v)] fresh in
      queue s = [Pending (Fulfilled v)]
      /\ iterator s = Ready
      /\ snd (next s) = Some v)
  /\ (let s := push [Later (Fulfilled v)] (fst (next fresh)) in
      queue s = []
      /\ iterator s = Resumed (Pending (Fulfilled v))
      /\ snd (next s) = Some v).
Proof.
  split; [|repeat split; reflexivity].
  change (repeat Next n ++ Push [Later (Fulfilled v)]
            :: repeat Next m ++ Close noOptions :: after)
    with (repeat Next n ++ (Push [Later (Fulfilled v)] :: repeat Next m)
            ++ Close noOptions :: after).
  rewrite app_assoc.
  change (@Returned T) with (@ending T noOptions).
  apply fed_then_closed; [|reflexivity].
  rewrite fed_nexts. cbn [fed map enqueueable payloads payload].
  change (Push [Later (Fulfilled v)] :: repeat Next m)
    with ([Push [Later (Fulfilled v)]] ++ repeat Next m).
  rewrite <- (app_nil_r (repeat Next m)), fed_nexts. reflexivity.
Qed.

(** C9.  A queue constructed with a promise.  When the promise rejects
    with [err], the reaction of [catch] calls [close] with [err] attached:
    on a queue that has only been fed, the loop yields every value pushed
    and then throws [err].  When the promise has settled, the reaction of
    [finally] calls [close] again: a queue that is closed already stays as
    it is, a queue still open is closed gracefully, so that the loop ends
    normally after the values pushed. *)
Theorem producer_promise_closes_queue (before between after : list (Call T))
    (vs : list T) (err : Error) :
  fed before = Some vs ->
  for_await (before ++ settled (RejectsWith err) between ++ after)
  = (vs, Thrown (Some err))
  /\ for_await (before ++ settled Resolves between ++ after) = (vs, Returned)
  /\ (forall s : AsyncQueue T, closed s = false ->
        fst (run (settled (RejectsWith err) []) s)
        = close_body (failing err) s)
  /\ (forall s : AsyncQueue T, closed s = false ->
        fst (run (settled Resolves []) s) = close_body noOptions s)
  /\ (forall (s : AsyncQueue T) p, closed s = true ->
        run (settled p []) s = (s, [])).
Proof.
  intros Hfed. repeat split.
  - unfold settled. rewrite <- app_comm_cons.
    change (@Thrown T (Some err)) with (@ending T (failing err)).
    now apply fed_then_closed.
  - unfold settled. rewrite <- app_comm_cons.
    change (@Returned T) with (@ending T noOptions).
    now apply fed_then_closed.
  - intros s Hc. simpl. unfold close at 2. rewrite Hc.
    unfold close. reflexivity.
  - intros s Hc. simpl. unfold close. now rewrite Hc.
  - intros s p Hc. apply run_producer_closed; trivial. now destruct p.
Qed.


(** ** Further properties of the class *)

(** A queue that has only been fed and is not closed leaves the loop
    suspended: driven to its end after any feeding schedule, the loop has
    yielded every value pushed, in order, and is then the registered waiter
    of an empty buffer; without a [close] it never finishes. *)
Theorem open_queue_leaves_loop_waiting (cs : list (Call T)) (vs : list T) :
  fed cs = Some vs ->
  for_await cs = (vs, Waiting)
  /\ resolve (fst (consume (fst (run cs fresh)))) = true
  /\ length (fst (consume (fst (run cs fresh)))) = 0
  /\ closed (fst (consume (fst (run cs fresh)))) = false.
Proof.
  intros Hfed. unfold for_await.
  destruct (feeding_run cs fresh_feeding Hfed) as (rest & Hy & Hs).
  pose proof (run_consistent cs fresh_consistent) as Hc.
  destruct (run cs fresh) as [s ys]; simpl in *.
  destruct Hs as (_ & He & _ & Hrun & Hw & Hp).
  destruct (consume_remaining Hw) as (Hz & Hi & _).
  assert (Hrem : remaining s = (rest, Waiting)).
  { unfold remaining. rewrite He.
    rewrite <- (app_nil_r (stream s)), (outcome_payloads None _ [] Hp).
    simpl. rewrite app_nil_r. now destruct (iterator s). }
  rewrite Hrem in Hz, Hi. simpl in Hz, Hi.
  pose proof (run_consistent (repeat Next (2 + List.length (queue s))) Hc)
    as (Hres & Hwait & _).
  fold (consume s) in Hres, Hwait.
  destruct (consume s) as [s' zs]; simpl in *.
  rewrite Hi in Hres. destruct (Hwait Hi) as [Hq Hk].
  repeat split; trivial.
  - f_equal; [congruence|trivial].
  - unfold length. now rewrite Hq.
Qed.

(** *** Entries the loop stops at *)

(** An insertion at the tail goes behind everything ahead of the
    generator. *)
Lemma enqueue_tail (d : Enqueueable T) (ds : list (Enqueueable T))
    (s : AsyncQueue T) :
  resolve s = waiting (iterator s) ->
  waits_on_empty s ->
  stream (enqueue false d ds s) = stream s ++ d :: ds
  /\ waits_on_empty (enqueue false d ds s)
  /\ resolve (enqueue false d ds s) = waiting (iterator (enqueue false d ds s))
  /\ running (iterator (enqueue false d ds s)) = running (iterator s)
  /\ (running (iterator s) = false ->
      iterator (enqueue false d ds s) = iterator s).
Proof.
  unfold waits_on_empty, stream, enqueue. break_state s. intros -> Hw.
  destruct it; simpl; repeat split; trivial; try discriminate.
  now rewrite (Hw eq_refl).
Qed.

Lemma handleError_begins (err : Error) (s : AsyncQueue T) :
  error s = None \/ begins_with_noArguments (error s) ->
  (error s = None -> err = noArgumentsError) ->
  begins_with_noArguments (error (handleError err s)).
Proof.
  unfold begins_with_noArguments, handleError. break_state s.
  intros [->|[->|[es ->]]] Hn.
  - left. now rewrite (Hn eq_refl).
  - right. now exists [err].
  - right. now exists (es ++ [err]).
Qed.

Lemma ends_as_at_rest (e : Enqueueable T) (it : Iterator T) :
  ends_as e it -> running it = false.
Proof.
  destruct e as [v|[v|reason|]| |]; simpl; try tauto.
  - now intros ->.
  - now intros ->.
  - now intros ->.
  - now intros (x & -> & _).
Qed.

(** The loop reading the entry it stops at. *)
Lemma outcome_stop (err : option Error) (e : Enqueueable T)
    (post : list (Enqueueable T)) :
  payload e = None ->
  (e = ERROR -> begins_with_noArguments err) ->
  fst (outcome err (e :: post)) = []
  /\ ends_as e (snd (outcome err (e :: post))).
Proof.
  intros Hp He. destruct e as [v|[v|reason|]| |]; simpl in *;
    try discriminate; auto.
  split; trivial. destruct (He eq_refl) as [->|[es ->]]; eexists; split;
    try reflexivity; unfold begins_with_noArguments; eauto.
Qed.

Lemma blocked_next {e : Enqueueable T} {s : AsyncQueue T} {vs : list T} :
  payload e = None ->
  blocked_by e s vs ->
  exists vs',
    vs = handed_out (snd (next s)) ++ vs'
    /\ blocked_by e (fst (next s)) vs'.
Proof.
  intros Hp (Hw & Hr & He & Hd).
  destruct (next_fields s) as [Herr _].
  destruct Hd as [(pre & post & Hrun & Hs & Hpre)|[-> Hend]].
  - pose proof (outcome_stop (error s) e post Hp He) as [_ Hstop].
    revert Hw Hr He Hrun Hs Hpre Herr Hstop.
    unfold blocked_by, waits_on_empty, stream, next. break_state s.
    intros Hw -> He Hrun Hs Hpre Herr Hstop.
    destruct it as [| |value| | |]; simpl in *; try discriminate.
    + destruct pre as [|p pre]; simpl in *; subst q.
      * injection Hpre as <-. exists [].
        destruct e as [v|[v|reason|]| |]; simpl in *; try discriminate;
          repeat split; trivial; try discriminate; right; auto.
      * destruct (payload p) as [v|] eqn:Hv; [|discriminate].
        destruct (payloads pre) as [ws|] eqn:Hws; [|discriminate].
        injection Hpre as <-. exists ws.
        destruct p as [v'|[v'| |]| |]; simpl in Hv; try discriminate;
          injection Hv as ->; simpl; repeat split; trivial;
          try discriminate; left; exists pre, post; auto.
    + rewrite (Hw eq_refl) in Hs. now destruct pre.
    + destruct pre as [|p pre]; simpl in *; injection Hs as -> ->.
      * injection Hpre as <-. exists [].
        destruct e as [v|[v|reason|]| |]; simpl in *; try discriminate;
          repeat split; trivial; try discriminate; right; auto.
      * destruct (payload p) as [v|] eqn:Hv; [|discriminate].
        destruct (payloads pre) as [ws|] eqn:Hws; [|discriminate].
        injection Hpre as <-. exists ws.
        destruct p as [v'|[v'| |]| |]; simpl in Hv; try discriminate;
          injection Hv as ->; simpl; repeat split; trivial;
          try discriminate; left; exists pre, post; auto.
  - pose proof (ends_as_at_rest _ _ Hend) as Hrun.
    assert (Hn : next s = (s, None)).
    { unfold next. now destruct (iterator s). }
    rewrite Hn. exists []. simpl. split; trivial.
    repeat split; trivial. right. auto.
Qed.

Lemma blocked_enqueue (e d : Enqueueable T) (ds : list (Enqueueable T))
    (s : AsyncQueue T) (vs : list T) :
  blocked_by e s vs -> blocked_by e (enqueue false d ds s) vs.
Proof.
  intros (Hw & Hr & He & Hd).
  destruct (enqueue_tail d ds s Hr Hw) as (Hs' & Hw' & Hr' & Hrun' & Hend').
  destruct (enqueue_fields false d ds s) as (Herr & _).
  repeat split; trivial.
  - now rewrite Herr.
  - destruct Hd as [(pre & post & Hrun & Hs & Hpre)|[-> Hend]].
    + left. exists pre, (post ++ d :: ds). repeat split; trivial.
      * congruence.
      * now rewrite Hs', Hs, <- app_assoc.
    + right. split; trivial.
      now rewrite (Hend' (ends_as_at_rest _ _ Hend)).
Qed.

Lemma blocked_handleError (e : Enqueueable T) (err : Error)
    (s : AsyncQueue T) (vs : list T) :
  blocked_by e s vs -> blocked_by e (handleError err s) vs.
Proof.
  intros (Hw & Hr & He & Hd). repeat split; trivial.
  intros Heq. specialize (He Heq). apply handleError_begins; [now right|].
  intros Hn. rewrite Hn in He. now destruct He as [He|[es He]].
Qed.

Lemma blocked_push (e : Enqueueable T) (data : list (Pushable T))
    (s : AsyncQueue T) (vs : list T) :
  blocked_by e s vs -> blocked_by e (push data s) vs.
Proof.
  intros Hs. unfold push. destruct (closed s); trivial.
  unfold push_body. destruct data as [|d ds].
  - now apply blocked_handleError, blocked_enqueue.
  - now apply blocked_enqueue.
Qed.

Lemma blocked_close (e : Enqueueable T) (o : EndOptions)
    (s : AsyncQueue T) (vs : list T) :
  immediately o = false ->
  blocked_by e s vs -> blocked_by e (close o s) vs.
Proof.
  intros Ho Hs. unfold close. destruct (closed s); trivial.
  unfold close_body. rewrite Ho.
  assert (H : blocked_by e
                (enqueue false
                   match withError o with Some _ => ERROR | None => END end []
                   match withError o with
                   | Some err => handleError err s
                   | None => s
                   end) vs).
  { apply blocked_enqueue. destruct (withError o); trivial.
    now apply blocked_handleError. }
  exact H.
Qed.

Lemma blocked_run {e : Enqueueable T} (cs : list (Call T))
    {s : AsyncQueue T} {vs : list T} :
  payload e = None ->
  forallb keeps_order cs = true ->
  blocked_by e s vs ->
  exists vs',
    vs = snd (run cs s) ++ vs' /\ blocked_by e (fst (run cs s)) vs'.
Proof.
  intros Hp. revert s vs.
  induction cs as [|c cs IH]; intros s vs Hk Hs; simpl in *.
  - now exists vs.
  - apply andb_prop in Hk. destruct Hk as [Hc Hk].
    assert (H1 : exists v1, vs = snd (step c s) ++ v1
                            /\ blocked_by e (fst (step c s)) v1).
    { destruct c as [data|o|]; simpl in *.
      - exists vs. split; trivial. now apply blocked_push.
      - exists vs. split; trivial. apply blocked_close; trivial.
        now destruct (immediately o).
      - destruct (blocked_next Hp Hs) as (v1 & Hv & H1).
        exists v1. now destruct (next s). }
    destruct H1 as (v1 & Hv & H1).
    destruct (step c s) as [s1 ys]; simpl in *.
    destruct (IH s1 v1 Hk H1) as (v2 & Hv2 & H2).
    destruct (run cs s1) as [s2 zs]; simpl in *.
    exists v2. split; trivial. now rewrite Hv, Hv2, app_assoc.
Qed.

Lemma blocked_consume {e : Enqueueable T} {s : AsyncQueue T} {vs : list T} :
  payload e = None ->
  blocked_by e s vs ->
  snd (consume s) = vs /\ ends_as e (iterator (fst (consume s))).
Proof.
  intros Hp (Hw & Hr & He & Hd).
  destruct (consume_remaining Hw) as (Hz & Hi & _).
  rewrite Hz, Hi. unfold remaining.
  destruct Hd as [(pre & post & Hrun & Hs & Hpre)|[-> Hend]].
  - destruct (outcome_stop (error s) e post Hp He) as [Hy Hstop].
    rewrite Hs, (outcome_payloads (error s) pre (e :: post) Hpre).
    rewrite Hy, app_nil_r.
    destruct (iterator s); try discriminate; auto.
  - pose proof (ends_as_at_rest _ _ Hend) as Hrun.
    destruct (iterator s); try discriminate; auto.
Qed.

Lemma feeding_blocked_push {s : AsyncQueue T} {vs ws : list T}
    (firsts rest : list (Pushable T)) (d : Pushable T) :
  feeding s vs ->
  payloads (map enqueueable firsts) = Some ws ->
  enqueueable d <> ERROR ->
  blocked_by (enqueueable d) (push (firsts ++ d :: rest) s) (vs ++ ws).
Proof.
  intros (Hc & He & Hr & Hrun & Hw & Hp) Hf Hd.
  unfold push. rewrite Hc. unfold push_body.
  destruct (firsts ++ d :: rest) as [|h t] eqn:Hdata.
  { now destruct firsts. }
  destruct (enqueue_tail (enqueueable h) (map enqueueable t) s Hr Hw)
    as (Hs' & Hw' & Hr' & Hrun' & _).
  repeat split; trivial.
  - intros H. now contradiction Hd.
  - left. exists (stream s ++ map enqueueable firsts), (map enqueueable rest).
    repeat split.
    + congruence.
    + rewrite Hs'.
      change (enqueueable h :: map enqueueable t)
        with (map enqueueable (h :: t)).
      now rewrite <- Hdata, map_app, app_assoc.
    + now rewrite payloads_app, Hp, Hf.
Qed.

Lemma feeding_blocked_empty_push (s : AsyncQueue T) (vs : list T) :
  feeding s vs -> blocked_by ERROR (push [] s) vs.
Proof.
  intros (Hc & He & Hr & Hrun & Hw & Hp).
  unfold push. rewrite Hc. unfold push_body.
  destruct (enqueue_tail ERROR [] s Hr Hw) as (Hs' & Hw' & Hr' & Hrun' & _).
  destruct (enqueue_fields false ERROR [] s) as (Herr & _).
  repeat split; trivial.
  - intros _. apply handleError_begins; [left; congruence|trivial].
  - left. exists (stream s), []. repeat split; trivial.
    simpl. congruence.
Qed.

(** Feeding, a [push] that brings in the entry [e] the loop stops at, then
    any calls that insert at the tail. *)
Lemma blocked_for_await (before after : list (Call T))
    (data : list (Pushable T)) (e : Enqueueable T) {vs : list T}
    (ws : list T) :
  fed before = Some vs ->
  (forall s rest, feeding s rest -> blocked_by e (push data s) (rest ++ ws)) ->
  payload e = None ->
  forallb keeps_order after = true ->
  exists it,
    for_await (before ++ Push data :: after) = (vs ++ ws, it) /\ ends_as e it.
Proof.
  intros Hfed Hpush Hp Hk. unfold for_await. rewrite run_app.
  destruct (feeding_run before fresh_feeding Hfed) as (rest & Hy & Hs).
  destruct (run before fresh) as [s1 ys]; simpl in *.
  destruct (blocked_run after Hp Hk (Hpush _ _ Hs)) as (v1 & Hv & H1).
  destruct (run after (push data s1)) as [s2 zs]; simpl in *.
  destruct (blocked_consume Hp H1) as (Hz & Hend).
  destruct (consume s2) as [s3 xs]; simpl in *.
  exists (iterator s3). split; trivial. f_equal.
  subst xs vs. now rewrite <- !app_assoc, Hv.
Qed.

(** A rejected promise in the queue: the loop yields what was pushed
    before it and then throws the reason of the rejection itself, not
    [#error]; what is behind the promise, arguments of the same [push]
    included, is never yielded, whatever is called afterwards short of an
    immediate [close]. *)
Theorem rejected_promise_is_thrown (before after : list (Call T))
    (firsts rest : list (Pushable T)) (vs ws : list T) (reason : Error) :
  fed before = Some vs ->
  payloads (map enqueueable firsts) = Some ws ->
  forallb keeps_order after = true ->
  for_await (before ++ Push (firsts ++ Later (Rejected reason) :: rest) :: after)
  = (vs ++ ws, Thrown (Some reason)).
Proof.
  intros Hfed Hf Hk.
  destruct (blocked_for_await before after
              (firsts ++ Later (Rejected reason) :: rest)
              (Pending (Rejected reason)) ws Hfed) as (it & Hrun & Hend);
    trivial.
  - intros s r Hs.
    apply (feeding_blocked_push firsts rest (Later (Rejected reason)) Hs Hf).
    discriminate.
  - simpl in Hend. now rewrite Hrun, Hend.
Qed.

(** A promise that never settles blocks the loop: it yields what was
    pushed before the promise and then stays suspended on it for good;
    neither later pushes nor a [close] that is not immediate get it to
    yield again or to finish. *)
Theorem unsettled_promise_blocks_the_loop (before after : list (Call T))
    (firsts rest : list (Pushable T)) (vs ws : list T) :
  fed before = Some vs ->
  payloads (map enqueueable firsts) = Some ws ->
  forallb keeps_order after = true ->
  for_await (before ++ Push (firsts ++ Later Unsettled :: rest) :: after)
  = (vs ++ ws, Hung).
Proof.
  intros Hfed Hf Hk.
  destruct (blocked_for_await before after
              (firsts ++ Later Unsettled :: rest)
              (Pending Unsettled) ws Hfed) as (it & Hrun & Hend);
    trivial.
  - intros s r Hs.
    apply (feeding_blocked_push firsts rest (Later Unsettled) Hs Hf).
    discriminate.
  - simpl in Hend. now rewrite Hrun, Hend.
Qed.

(** [push()] with no argument ends the stream although it does not close
    the queue: the loop yields the values pushed before it and then throws
    a failure that is, or whose [errors] begin with, [noArgumentsError];
    values pushed afterwards are never yielded, and a later [close()]
    does not turn the end into a normal one. *)
Theorem push_without_arguments_ends_the_loop (before after : list (Call T))
    (vs : list T) :
  fed before = Some vs ->
  forallb keeps_order after = true ->
  exists x,
    for_await (before ++ Push [] :: after) = (vs, Thrown (Some x))
    /\ (x = noArgumentsError
        \/ exists es, x = AggregateError (noArgumentsError :: es)).
Proof.
  intros Hfed Hk.
  destruct (blocked_for_await before after [] ERROR [] Hfed)
    as (it & Hrun & x & -> & Hx); trivial.
  - intros s r Hs. rewrite app_nil_r. now apply feeding_blocked_empty_push.
  - exists x. rewrite app_nil_r in Hrun. split; trivial.
    destruct Hx as [Hx|[es Hx]]; injection Hx as ->; eauto.
Qed.

(** [push()] directly followed by [close({ withError: err })]. *)
Lemma feeding_empty_push_close {s : AsyncQueue T} {vs : list T}
    (err : Error) :
  feeding s vs ->
  waits_on_empty (close (failing err) (push [] s))
  /\ closed (close (failing err) (push [] s)) = true
  /\ remaining (close (failing err) (push [] s))
     = (vs, Thrown (Some (AggregateError [noArgumentsError; err]))).
Proof.
  unfold feeding, waits_on_empty, remaining, stream, close, close_body,
    push, push_body, enqueue, handleError, failing.
  break_state s. intros (-> & -> & -> & Hrun & Hw & Hp).
  destruct it as [| |value| | |]; simpl in *; try discriminate.
  - split; [discriminate|split; [reflexivity|]].
    rewrite <- app_assoc, (outcome_payloads _ q _ Hp). simpl.
    now rewrite app_nil_r.
  - rewrite (Hw eq_refl) in *. simpl in Hp. injection Hp as <-.
    split; [discriminate|split; reflexivity].
  - destruct (payload value) as [v|] eqn:Hv; [|discriminate].
    destruct (payloads q) as [ws|] eqn:Hq; [|discriminate].
    injection Hp as <-.
    split; [discriminate|split; [reflexivity|]].
    destruct value as [v'|[v'| |]| |]; simpl in Hv; try discriminate;
      injection Hv as ->;
      rewrite <- app_assoc, (outcome_payloads _ q _ Hq); simpl;
      now rewrite app_nil_r.
Qed.

(** Failures reported before the loop reaches the marker are thrown
    together: when [push()] with no argument is directly followed by
    [close({ withError: err })], the loop yields the values pushed before
    and then throws one [AggregateError] whose [errors] are the failure of
    the empty [push] and [err], in that order. *)
Theorem failures_reported_together_are_thrown_together
    (before after : list (Call T)) (vs : list T) (err : Error) :
  fed before = Some vs ->
  for_await (before ++ Push [] :: Close (failing err) :: after)
  = (vs, Thrown (Some (AggregateError [noArgumentsError; err]))).
Proof.
  intros Hfed. unfold for_await. rewrite run_app.
  destruct (feeding_run before fresh_feeding Hfed) as (rest & Hy & Hs).
  destruct (run before fresh) as [s1 ys]; simpl in *.
  destruct (feeding_empty_push_close err Hs) as (Hw & Hc & Hr).
  destruct (closed_run after Hw Hc) as (Hy' & Hi' & Hw' & _).
  destruct (run after (close (failing err) (push [] s1))) as [s2 zs];
    simpl in *.
  destruct (consume_remaining Hw') as (Hz & Hi & _).
  destruct (consume s2) as [s3 ws]; simpl in *.
  rewrite Hr in Hy', Hi'. simpl in Hy', Hi'.
  f_equal.
  - rewrite <- app_assoc, Hz, <- Hy'. exact Hy.
  - congruence.
Qed.

(** The loop driven on a queue with a sentinel next in line. *)
Lemma consume_sentinel_head (s : AsyncQueue T) (mark : Enqueueable T)
    (rest : list (Enqueueable T)) :
  iterator s = Ready ->
  queue s = mark :: rest ->
  sentinel mark = true ->
  consume s
  = ({| queue := rest; resolve := resolve s; error := error s;
        closed := closed s;
        iterator := match mark with
                    | END => Returned
                    | _ => Thrown (error s)
                    end |}, []).
Proof.
  intros Hi Hq Hm. unfold consume. rewrite Hq. cbn [List.length].
  change (2 + S ?n) with (S (2 + n)). rewrite run_next_cons.
  unfold next. rewrite Hi, Hq.
  destruct mark; try discriminate; cbn [loop_body set_iterator set_queue
    queue resolve error closed iterator];
    now rewrite run_nexts_at_rest.
Qed.

Lemma consume_sentinel_resumed (s : AsyncQueue T) (mark : Enqueueable T) :
  iterator s = Resumed mark ->
  sentinel mark = true ->
  consume s
  = (set_iterator match mark with
                  | END => Returned
                  | _ => Thrown (error s)
                  end s, []).
Proof.
  intros Hi Hm. unfold consume.
  change (2 + ?n) with (S (1 + n)). rewrite run_next_cons.
  unfold next. rewrite Hi.
  destruct mark; try discriminate; cbn [after_await loop_body];
    now rewrite run_nexts_at_rest.
Qed.

(** Interrupting the iteration: in every state the public operations lead
    to in which the queue is open and the loop is at its head or waiting,
    [close] with [immediately] set makes the loop end at its next step
    without yielding anything more: normally when no failure is given,
    and otherwise by throwing the failure state with the given failure
    merged in.  The entries that were buffered stay in the buffer, and
    [queue.length] keeps counting them. *)
Theorem immediate_close_interrupts (cs : list (Call T))
    (we : option Error) :
  let s := fst (run cs fresh) in
  let s' := close {| immediately := true; withError := we |} s in
  closed s = false ->
  running (iterator s) = true ->
  in_hand s = 0 ->
  snd (consume s') = []
  /\ iterator (fst (consume s'))
     = match we with
       | Some err => Thrown (error (handleError err s))
       | None => Returned
       end
  /\ (we <> None -> error s' <> None)
  /\ length (fst (consume s')) = length s.
Proof.
  cbv zeta. intros Hc Hrun Hhand.
  destruct (run_consistent cs fresh_consistent) as (Hr & Hw & _).
  revert Hc Hrun Hhand Hr Hw.
  generalize (fst (run cs (@fresh T))). intros s Hc Hrun Hhand Hr Hw.
  unfold close. rewrite Hc. unfold close_body. cbn [withError immediately].
  set (s1 := match we with Some err => handleError err s | None => s end).
  set (mark := match we with Some _ => @ERROR T | None => END end).
  assert (Hm : sentinel mark = true) by (subst mark; now destruct we).
  assert (H1 : queue s1 = queue s /\ resolve s1 = resolve s
               /\ iterator s1 = iterator s)
    by (subst s1; now destruct we).
  destruct H1 as (Hq1 & Hr1 & Hi1).
  assert (He : error s1 = match we with
                          | Some err => error (handleError err s)
                          | None => error s
                          end)
    by (subst s1; now destruct we).
  assert (Hne : we <> None -> error s1 <> None).
  { subst s1. destruct we as [e|]; [|tauto].
    intros _. apply handleError_records. }
  unfold enqueue. rewrite Hr1, Hi1, Hq1, Hr. cbn [app].
  unfold in_hand in Hhand.
  destruct (iterator s) eqn:Hi; simpl in Hrun, Hhand; try discriminate;
    cbn [waiting].
  - cbn [queue resolve error closed iterator].
    erewrite consume_sentinel_head; [|reflexivity|reflexivity|exact Hm].
    cbn [fst snd iterator error length queue]. rewrite He.
    repeat split; trivial; try (now rewrite <- He).
    subst mark. now destruct we.
  - destruct (Hw eq_refl) as [Hq _]. rewrite Hq. cbn [hd tl resume].
    cbn [queue resolve error closed iterator].
    erewrite consume_sentinel_resumed; [|reflexivity|exact Hm].
    cbn [fst snd set_iterator iterator error length queue]. rewrite He.
    repeat split; trivial; try (now rewrite <- He);
      try (unfold length; simpl; now rewrite Hq).
    subst mark. now destruct we.
Qed.

(** An entry that was handed to the waiter before the [close] is not
    taken back: when the loop has been resolved with a value and has not
    run on yet, [close] with [immediately] set lets it yield that one
    value and ends it at the step after. *)
Theorem immediate_close_spares_value_in_hand (cs : list (Call T))
    (we : option Error) (value : Enqueueable T) (v : T) :
  let s := fst (run cs fresh) in
  let s' := close {| immediately := true; withError := we |} s in
  closed s = false ->
  iterator s = Resumed value ->
  payload value = Some v ->
  snd (consume s') = [v]
  /\ iterator (fst (consume s'))
     = match we with
       | Some err => Thrown (error (handleError err s))
       | None => Returned
       end.
Proof.
  cbv zeta. intros Hc Hi Hv.
  destruct (run_consistent cs fresh_consistent) as (Hr & _ & _).
  revert Hc Hi Hr.
  generalize (fst (run cs (@fresh T))). intros s Hc Hi Hr.
  rewrite Hi in Hr. simpl in Hr.
  assert (Hw : waits_on_empty
                 (close {| immediately := true; withError := we |} s)).
  { unfold waits_on_empty, close, close_body, enqueue. rewrite Hc.
    destruct we; simpl; rewrite Hr; simpl; rewrite Hi; discriminate. }
  destruct (consume_remaining Hw) as (Hz & Hj & _).
  rewrite Hz, Hj.
  unfold remaining, stream, close, close_body, enqueue. rewrite Hc.
  destruct we as [e|]; simpl; rewrite Hr; simpl; rewrite Hi;
    destruct value as [v'|[v'| |]| |]; simpl in Hv; try discriminate;
    injection Hv as ->; simpl; auto.
Qed.

End Facts.

(** ** The claims at concrete inputs *)

(** C1 on a schedule that interleaves two pushes with a resumption, and
    goes on calling after the [close]. *)
Lemma fifo_until_graceful_close_witness :
  fed [Push [Now 1; Now 2]; Next; Push [Later (Fulfilled 3)]] = Some [1; 2; 3]
  /\ for_await ([Push [Now 1; Now 2]; Next; Push [Later (Fulfilled 3)]]
                ++ Close noOptions :: [Next; Push [Now 4]; Close noOptions])
     = ([1; 2; 3], Returned).
Proof.
  split; [reflexivity|].
  apply (fifo_until_graceful_close nat
           [Push [Now 1; Now 2]; Next; Push [Later (Fulfilled 3)]]
           [Next; Push [Now 4]; Close noOptions] [1; 2; 3]).
  reflexivity.
Defined.

(** C2 as stated fails: after [push()] has recorded a failure, [close()]
    with no argument appends [END], not [ERROR], although the failure state
    is not absent. *)
Lemma close_after_empty_push_appends_END :
  let s := push [] (@fresh nat) in
  closed s = false
  /\ error (close noOptions s) = Some noArgumentsError
  /\ queue s = [ERROR]
  /\ queue (close noOptions s) = queue s ++ [END]
  /\ queue (close noOptions s) <> queue s ++ [ERROR].
Proof.
  cbv zeta. repeat split. discriminate.
Qed.

(** The amended C2 at that input, and at a [close] that carries a
    failure. *)
Lemma close_sentinel_follows_argument_witness :
  queue (close noOptions (push [] (@fresh nat))) = [ERROR; END]
  /\ queue (close (failing (PlainError "E"%string)) (@fresh nat)) = [ERROR].
Proof.
  split.
  - destruct (close_sentinel_follows_argument nat (push [] fresh) noOptions
                eq_refl) as (_ & H & _).
    simpl in H. exact (proj1 H).
  - destruct (close_sentinel_follows_argument nat fresh
                (failing (PlainError "E"%string)) eq_refl) as (_ & H & _).
    simpl in H. exact (proj1 H).
Defined.

(** C5 on a new queue. *)
Lemma push_without_arguments_witness :
  error (push [] (@fresh nat)) = Some noArgumentsError
  /\ queue (push [] (@fresh nat)) = [ERROR]
  /\ closed (push [] (@fresh nat)) = false.
Proof.
  destruct (push_without_arguments nat fresh eq_refl)
    as (He & _ & Hq & Hc & _).
  simpl in Hq. exact (conj He (conj (proj1 Hq) Hc)).
Defined.

(** C7 on a queue whose generator was resumed once before anything was
    pushed. *)
Lemma waiter_gets_head_of_buffer_witness :
  resolve (fst (run [Next] (@fresh nat))) = true
  /\ iterator (push [Now 7; Now 8] (fst (run [Next] (@fresh nat))))
     = Resumed (Value 7)
  /\ queue (push [Now 7; Now 8] (fst (run [Next] (@fresh nat)))) = [Value 8].
Proof.
  split; [reflexivity|].
  destruct (waiter_gets_head_of_buffer nat [Next] eq_refl) as (_ & H & _).
  destruct (H (Now 7) [Now 8]) as (Hi & Hq & _).
  exact (conj Hi Hq).
Defined.

(** C9 on a producer that pushes twice and then fails. *)
Lemma producer_promise_closes_queue_witness :
  for_await ([Push [Now 1]; Next; Next; Push [Now 2]]
             ++ settled (RejectsWith (PlainError "E"%string)) [Next]
             ++ [Next])
  = ([1; 2], Thrown (Some (PlainError "E"%string))).
Proof.
  apply (producer_promise_closes_queue nat
           [Push [Now 1]; Next; Next; Push [Now 2]] [Next] [Next] [1; 2]
           (PlainError "E"%string) eq_refl).
Defined.

(** ** The further properties at concrete inputs *)

Lemma open_queue_leaves_loop_waiting_witness :
  for_await [Push [Now 1; Now 2]; Next; Push [Now 3]] = ([1; 2; 3], Waiting).
Proof.
  exact (proj1 (open_queue_leaves_loop_waiting nat
                  [Push [Now 1; Now 2]; Next; Push [Now 3]] [1; 2; 3]
                  eq_refl)).
Defined.

Lemma rejected_promise_is_thrown_witness :
  for_await ([Push [Now 1]; Next]
             ++ Push ([Now 2] ++ Later (Rejected (PlainError "R"%string))
                              :: [Now 3])
             :: [Push [Now 4]; Close noOptions])
  = ([1] ++ [2], Thrown (Some (PlainError "R"%string))).
Proof.
  apply (rejected_promise_is_thrown nat); reflexivity.
Defined.

Lemma unsettled_promise_blocks_the_loop_witness :
  for_await ([Push [Now 1]]
             ++ Push ([] ++ Later Unsettled :: [Now 2])
             :: [Next; Push [Now 3]; Close noOptions])
  = ([1] ++ [], Hung).
Proof.
  apply (unsettled_promise_blocks_the_loop nat); reflexivity.
Defined.

Lemma push_without_arguments_ends_the_loop_witness :
  exists x,
    for_await ([Push [Now 1]] ++ Push [] :: [Push [Now 2]; Close noOptions])
    = ([1], Thrown (Some x))
    /\ (x = noArgumentsError
        \/ exists es, x = AggregateError (noArgumentsError :: es)).
Proof.
  apply (push_without_arguments_ends_the_loop nat); reflexivity.
Defined.

Lemma failures_reported_together_are_thrown_together_witness :
  for_await ([Next; Push [Now 1]]
             ++ Push [] :: Close (failing (PlainError "E"%string)) :: [Next])
  = ([1], Thrown (Some (AggregateError
                          [noArgumentsError; PlainError "E"%string]))).
Proof.
  apply (failures_reported_together_are_thrown_together nat); reflexivity.
Defined.

Lemma immediate_close_interrupts_witness :
  snd (consume (close {| immediately := true;
                         withError := Some (PlainError "E"%string) |}
                      (fst (run [Push [Now 1; Now 2]; Next] (@fresh nat)))))
  = [].
Proof.
  exact (proj1 (immediate_close_interrupts nat [Push [Now 1; Now 2]; Next]
                  (Some (PlainError "E"%string)) eq_refl eq_refl eq_refl)).
Defined.

Lemma immediate_close_spares_value_in_hand_witness :
  snd (consume (close {| immediately := true; withError := None |}
                      (fst (run [Next; Push [Now 1; Now 2]] (@fresh nat)))))
  = [1].
Proof.
  exact (proj1 (immediate_close_spares_value_in_hand nat
                  [Next; Push [Now 1; Now 2]] None (Value 1) 1
                  eq_refl eq_refl eq_refl)).
Defined.

(** C4 as stated fails when the first failure recorded is an
    [AggregateError] itself: the second one is appended to its [errors],
    so the failure state is not a compound of the two failures. *)
Lemma compound_first_failure_is_extended :
  let a := PlainError "a"%string in
  let b := PlainError "b"%string in
  let c := PlainError "c"%string in
  error (handleErrors [AggregateError [a; b]; c] (@fresh nat))
  = Some (AggregateError [a; b; c])
  /\ error (handleErrors [AggregateError [a; b]; c] (@fresh nat))
     <> accumulated [AggregateError [a; b]; c].
Proof.
  cbv zeta. split; [reflexivity|]. simpl. intros H. discriminate H.
Qed.

(** The amended C4 on three failures, the first a plain one and the first
    a compound one. *)
Lemma recorded_failures_accumulate_witness :
  error (handleErrors [PlainError "a"%string; PlainError "b"%string;
                       PlainError "c"%string] (@fresh nat))
  = Some (AggregateError [PlainError "a"%string; PlainError "b"%string;
                          PlainError "c"%string])
  /\ error (handleErrors [AggregateError [PlainError "a"%string];
                          PlainError "b"%string; PlainError "c"%string]
                         (@fresh nat))
     = Some (AggregateError [PlainError "a"%string; PlainError "b"%string;
                             PlainError "c"%string]).
Proof.
  split.
  - exact (recorded_failures_accumulate nat fresh (PlainError "a"%string)
             [PlainError "b"%string; PlainError "c"%string] eq_refl).
  - exact (recorded_failures_accumulate nat fresh
             (AggregateError [PlainError "a"%string])
             [PlainError "b"%string; PlainError "c"%string] eq_refl).
Defined.


